(** * Shift board front end (app.js): week table aggregation and form handlers

    A shallow embedding of [src/app.js].  The grouping loop of
    [renderWeekTable] works on plain JavaScript objects, so the model keeps
    what such objects really do: property reads follow the prototype chain up
    to [Object.prototype], [Object.entries] lists integer-like keys first, and
    arrays are shared by reference.  The asynchronous functions are cut at
    their [await]s into segments that run to completion on the page state. *)

From stdpp Require Import base numbers option list sorting strings.

Local Open Scope N_scope.

(** ** JavaScript strings

    A JavaScript string is a sequence of UTF-16 code units; equality, the
    default [sort] order and property keys all work on code units. *)

Abbreviation jsstring := (list N).

(** The source file is UTF-8; [js] turns a literal of the source into the
    code units the engine sees. *)
Fixpoint utf16_of_utf8 (bs : list N) : jsstring :=
  match bs with
  | [] => []
  | b :: rest =>
      if b <? 128 then b :: utf16_of_utf8 rest
      else if b <? 224 then
        match rest with
        | c :: rest1 => ((b - 192) * 64 + (c - 128)) :: utf16_of_utf8 rest1
        | [] => [65533]
        end
      else if b <? 240 then
        match rest with
        | c :: d :: rest2 =>
            ((b - 224) * 4096 + (c - 128) * 64 + (d - 128)) :: utf16_of_utf8 rest2
        | _ => [65533]
        end
      else
        match rest with
        | c :: d :: e :: rest3 =>
            let cp := (b - 240) * 262144 + (c - 128) * 4096 + (d - 128) * 64 + (e - 128) in
            (55296 + (cp - 65536) / 1024) :: (56320 + (cp - 65536) mod 1024)
              :: utf16_of_utf8 rest3
        | _ => [65533]
        end
  end.

Definition js (s : string) : jsstring :=
  utf16_of_utf8 (map Byte.to_N (String.list_byte_of_string s)).

(** [<] on strings: lexicographic on code units. *)
Fixpoint str_ltb (a b : jsstring) : bool :=
  match a, b with
  | _, [] => false
  | [], _ :: _ => true
  | x :: a', y :: b' => (x <? y) || ((x =? y) && str_ltb a' b')
  end.

Definition str_lt (a b : jsstring) : Prop := str_ltb a b = true.
Definition str_le (a b : jsstring) : Prop := str_ltb b a = false.

(** [String.prototype.trim]: WhiteSpace and LineTerminator code points. *)
Definition is_space (c : N) : bool :=
  ((9 <=? c) && (c <=? 13)) || (c =? 32) || (c =? 160) || (c =? 5760)
  || ((8192 <=? c) && (c <=? 8202)) || (c =? 8232) || (c =? 8233)
  || (c =? 8239) || (c =? 8287) || (c =? 12288) || (c =? 65279).

Fixpoint trim_start (s : jsstring) : jsstring :=
  match s with
  | c :: s' => if is_space c then trim_start s' else s
  | [] => []
  end.

Definition trim (s : jsstring) : jsstring :=
  reverse (trim_start (reverse (trim_start s))).

(** Truthiness of a string: only the empty string is falsy. *)
Definition nonempty (s : jsstring) : bool :=
  match s with [] => false | _ => true end.

(** ** Records received from the server *)

Inductive digit := D0 | D1 | D2 | D3 | D4 | D5 | D6 | D7 | D8 | D9.

Definition digit_code (d : digit) : N :=
  48 + match d with
       | D0 => 0 | D1 => 1 | D2 => 2 | D3 => 3 | D4 => 4
       | D5 => 5 | D6 => 6 | D7 => 7 | D8 => 8 | D9 => 9
       end.

(** [Shift.date] is a calendar date in the shape YYYY-MM-DD. *)
Record iso_date := IsoDate {
  y1 : digit; y2 : digit; y3 : digit; y4 : digit;
  m1 : digit; m2 : digit;
  d1 : digit; d2 : digit
}.

(** The string the code sees in [s.date]. *)
Definition date_key (d : iso_date) : jsstring :=
  [digit_code (y1 d); digit_code (y2 d); digit_code (y3 d); digit_code (y4 d); 45;
   digit_code (m1 d); digit_code (m2 d); 45;
   digit_code (d1 d); digit_code (d2 d)].

Definition digit_of (n : N) : digit :=
  match n mod 10 with
  | 0 => D0 | 1 => D1 | 2 => D2 | 3 => D3 | 4 => D4
  | 5 => D5 | 6 => D6 | 7 => D7 | 8 => D8 | _ => D9
  end.

(** Shorthand for writing dates in examples. *)
Definition ymd (y m d : N) : iso_date :=
  IsoDate (digit_of (y / 1000)) (digit_of (y / 100)) (digit_of (y / 10)) (digit_of y)
          (digit_of (m / 10)) (digit_of m) (digit_of (d / 10)) (digit_of d).

(** What the [employee] property of a shift can hold after [res.json()]. *)
Inductive value :=
  | VUndefined                              (* property absent *)
  | VNull
  | VBool (b : bool)
  | VNumber (n : Z)                         (* an integral number *)
  | VString (s : jsstring)
  | VEmployee (full_name : option jsstring). (* embedded object; [None]: no full_name *)

Record shift := Shift {
  date : iso_date;
  start_time : jsstring;
  end_time : jsstring;
  position : jsstring;
  employee : value
}.

#[global] Instance digit_eq_dec : EqDecision digit.
Proof. solve_decision. Defined.
#[global] Instance iso_date_eq_dec : EqDecision iso_date.
Proof. solve_decision. Defined.

(** ToBoolean *)
Definition truthy (v : value) : bool :=
  match v with
  | VUndefined | VNull => false
  | VBool b => b
  | VNumber n => negb (n =? 0)%Z
  | VString s => nonempty s
  | VEmployee _ => true
  end.

(** [v.full_name] for a truthy [v]; [None] is [undefined].  A primitive has
    no such property, an embedded object has it or not. *)
Definition full_name_of (v : value) : option jsstring :=
  match v with
  | VEmployee n => n
  | _ => None
  end.

(** ToPropertyKey of a string or [undefined]. *)
Definition property_key (o : option jsstring) : jsstring :=
  match o with
  | Some s => s
  | None => js "undefined"
  end.

Definition open_shift_key : jsstring := js "(Açık shift)".

(** line 154: [s.employee ? s.employee.full_name : "(Açık shift)"] *)
Definition empName (s : shift) : jsstring :=
  if truthy (employee s) then property_key (full_name_of (employee s))
  else open_shift_key.

(** line 193: the text of a shift's span *)
Definition span_text (s : shift) : jsstring :=
  start_time s ++ js " - " ++ end_time s ++ js " (" ++ position s ++ js ")".

(** ** Objects of the page's realm

    Objects live in a store and are named by their position in it.  Every
    property the grouping loop creates under a date key holds an array, so an
    object is its array elements (none unless it is an array) and its own
    date-keyed properties, in creation order. *)

Abbreviation ref := nat.

Record object := Object {
  elems : list shift;
  props : list (iso_date * ref)
}.

Abbreviation heap := (list object).

(** Own properties as an association list in creation order. *)
Fixpoint assoc {K V} `{EqDecision K} (k : K) (l : list (K * V)) : option V :=
  match l with
  | [] => None
  | (k', v) :: l' => if decide (k' = k) then Some v else assoc k l'
  end.

(** [o[k] = v]: an existing own property keeps its place, a new one goes last. *)
Fixpoint assoc_set {K V} `{EqDecision K} (k : K) (v : V) (l : list (K * V)) : list (K * V) :=
  match l with
  | [] => [(k, v)]
  | (k', v') :: l' =>
      if decide (k' = k) then (k', v) :: l' else (k', v') :: assoc_set k v l'
  end.

(** [Object.prototype] sits at position 0 and the objects its own members
    hold at positions 1 to 11; reading [__proto__] gives [Object.prototype]
    itself, the other eleven are functions. *)
Definition object_prototype : ref := 0%nat.

Definition object_prototype_members : list (jsstring * ref) :=
  [ (js "__proto__", 0%nat); (js "constructor", 1%nat);
    (js "hasOwnProperty", 2%nat); (js "isPrototypeOf", 3%nat);
    (js "propertyIsEnumerable", 4%nat); (js "toLocaleString", 5%nat);
    (js "toString", 6%nat); (js "valueOf", 7%nat);
    (js "__defineGetter__", 8%nat); (js "__defineSetter__", 9%nat);
    (js "__lookupGetter__", 10%nat); (js "__lookupSetter__", 11%nat) ].

(** The store of a freshly loaded page. *)
Definition new_realm : heap := replicate 12 (Object [] []).

(** [Object.prototype[k]] for a string [k]: a built-in member, or a property
    that an earlier assignment put there (those are all date-keyed). *)
Definition inherited (h : heap) (k : jsstring) : option ref :=
  match assoc k object_prototype_members with
  | Some r => Some r
  | None =>
      o ← h !! object_prototype;
      assoc k (map (λ p, (date_key p.1, p.2)) (props o))
  end.

Definition own_date (h : heap) (r : ref) (d : iso_date) : option ref :=
  o ← h !! r; assoc d (props o).

(** [x[d]] for the object [x] at [r]: own property first, then the prototype
    chain, on which only [Object.prototype] can have a date-keyed property. *)
Definition get_date (h : heap) (r : ref) (d : iso_date) : option ref :=
  match own_date h r d with
  | Some a => Some a
  | None => own_date h object_prototype d
  end.

(** [x[d] = a] *)
Definition put_date (h : heap) (r : ref) (d : iso_date) (a : ref) : heap :=
  alter (λ o, Object (elems o) (assoc_set d a (props o))) r h.

(** [a.push(s)] *)
Definition push (h : heap) (a : ref) (s : shift) : heap :=
  alter (λ o, Object (elems o ++ [s]) (props o)) a h.

(** ** The grouping loop of [renderWeekTable] (lines 150-159) *)

Record grouping := Grouping {
  byEmployee : list (jsstring * ref);   (* own properties, creation order *)
  datesSet : list iso_date;             (* a Set: insertion order, no repeats *)
  objects : heap
}.

(** [byEmployee[k]]: own property, else whatever [Object.prototype] gives. *)
Definition get_row (g : grouping) (k : jsstring) : option ref :=
  match assoc k (byEmployee g) with
  | Some r => Some r
  | None => inherited (objects g) k
  end.

(** line 155: [if (!byEmployee[empName]) byEmployee[empName] = {};]
    every value found is an object, hence truthy. *)
Definition line155 (k : jsstring) (g : grouping) : grouping :=
  match get_row g k with
  | Some _ => g
  | None =>
      {| byEmployee := byEmployee g ++ [(k, length (objects g))];
         datesSet := datesSet g;
         objects := objects g ++ [Object [] []] |}
  end.

(** line 156: [byEmployee[empName][s.date] = byEmployee[empName][s.date] || [];] *)
Definition line156 (k : jsstring) (d : iso_date) (g : grouping) : grouping :=
  match get_row g k with
  | Some r =>
      match get_date (objects g) r d with
      | Some a =>
          {| byEmployee := byEmployee g; datesSet := datesSet g;
             objects := put_date (objects g) r d a |}
      | None =>
          {| byEmployee := byEmployee g; datesSet := datesSet g;
             objects := put_date (objects g ++ [Object [] []]) r d (length (objects g)) |}
      end
  | None => g      (* not reached after line 155 *)
  end.

(** line 157: [byEmployee[empName][s.date].push(s);] *)
Definition line157 (k : jsstring) (s : shift) (g : grouping) : grouping :=
  match get_row g k with
  | Some r =>
      match get_date (objects g) r (date s) with
      | Some a =>
          {| byEmployee := byEmployee g; datesSet := datesSet g;
             objects := push (objects g) a s |}
      | None => g  (* not reached after line 156 *)
      end
  | None => g      (* not reached after line 155 *)
  end.

(** line 158: [datesSet.add(s.date);] *)
Definition line158 (d : iso_date) (g : grouping) : grouping :=
  {| byEmployee := byEmployee g;
     datesSet := if decide (d ∈ datesSet g) then datesSet g else datesSet g ++ [d];
     objects := objects g |}.

(** The body of [shifts.forEach(s => ...)]. *)
Definition visit (g : grouping) (s : shift) : grouping :=
  let name := empName s in
  line158 (date s) (line157 name s (line156 name (date s) (line155 name g))).

(** lines 150-159 *)
Definition group (h : heap) (shifts : list shift) : grouping :=
  foldl visit (Grouping [] [] h) shifts.

(** ** Column and row order (lines 161 and 181) *)

Definition date_le (a b : iso_date) : Prop := str_le (date_key a) (date_key b).

#[global] Instance date_le_dec : RelDecision date_le.
Proof. intros a b. unfold date_le, str_le. apply _. Defined.

(** line 161: [Array.from(datesSet).sort()], the default order on strings.
    The elements are pairwise distinct, so any sorting algorithm gives this
    list. *)
Definition sorted_dates (g : grouping) : list iso_date :=
  merge_sort date_le (datesSet g).

Definition digit_value (c : N) : option N :=
  if (48 <=? c) && (c <=? 57) then Some (c - 48) else None.

Fixpoint decimal (acc : N) (s : jsstring) : option N :=
  match s with
  | [] => Some acc
  | c :: s' => v ← digit_value c; decimal (acc * 10 + v) s'
  end.

(** A property key is an array index when it is the canonical decimal form
    of an integer below 2^32 - 1. *)
Definition array_index (k : jsstring) : option N :=
  match k with
  | [] => None
  | c :: k' =>
      if (c =? 48) && nonempty k' then None
      else n ← decimal 0 k; if n <? 4294967295 then Some n else None
  end.

Definition index_le (a b : N * (jsstring * ref)) : Prop := (a.1 <= b.1)%N.

#[global] Instance index_le_dec : RelDecision index_le.
Proof. intros a b. unfold index_le. apply _. Defined.

(** [Object.entries(o)]: own keys that are array indices come first, in
    ascending numeric order, then the other keys in creation order. *)
Definition entries (o : list (jsstring * ref)) : list (jsstring * ref) :=
  map snd (merge_sort index_le (omap (λ p, n ← array_index p.1; Some (n, p)) o))
  ++ filter (λ p, array_index p.1 = None) o.

(** ** The table (lines 161-202) *)

(** What the table shows: the header dates, and per row the name and one
    list of shifts per header date. *)
Record WeekView := {
  columns : list iso_date;
  rows : list (jsstring * list (list shift))
}.

(** line 189: [shiftsByDate[d] || []] *)
Definition bucket (h : heap) (r : ref) (d : iso_date) : list shift :=
  match get_date h r d with
  | Some a => match h !! a with Some o => elems o | None => [] end
  | None => []
  end.

Definition view_of (g : grouping) : WeekView :=
  let dates := sorted_dates g in
  {| columns := dates;
     rows := map (λ p, (p.1, map (bucket (objects g) p.2) dates))
                 (entries (byEmployee g)) |}.

(** The content of [#schedule-table-container]. *)
Record tr := Tr {
  first_cell : jsstring;                (* the td with the name *)
  cells : list (list jsstring)          (* per date: the texts of the spans *)
}.

Inductive container :=
  | Blank                               (* innerHTML = "" *)
  | Notice (text : jsstring)
  | Table (head : list jsstring) (body : list tr).

Definition draw (v : WeekView) : container :=
  Table (js "Çalışan" :: map date_key (columns v))
        (map (λ p, Tr p.1 (map (map span_text) p.2)) (rows v)).

Definition no_shifts_text : jsstring := js "Bu hafta için kayıtlı vardiya yok.".

(** [renderWeekTable(shifts)]: the new store and the new container. *)
Definition renderWeekTable (h : heap) (shifts : list shift) : heap * container :=
  match shifts with
  | [] => (h, Notice no_shifts_text)
  | _ =>
      let g := group h shifts in
      (objects g, draw (view_of g))
  end.

(** The view the table is drawn from; with no shifts there is no table. *)
Definition week_view (h : heap) (shifts : list shift) : WeekView :=
  view_of (group h shifts).

(** ** The page and the network *)

Inductive field :=
  | emp_name | emp_role | emp_phone | emp_rate
  | shift_date | shift_start | shift_end | shift_position | shift_employee
  | week_date.

#[global] Instance field_eq_dec : EqDecision field.
Proof. solve_decision. Defined.

(** The JSON bodies of the two POST requests.  [Number(text)] is kept as the
    text it is applied to. *)
Record employee_payload := EmployeePayload {
  ep_full_name : jsstring;
  ep_role : jsstring;
  ep_phone : option jsstring;
  ep_hourly_rate : option jsstring;
  ep_is_active : bool
}.

Record shift_payload := ShiftPayload {
  sp_date : jsstring;
  sp_start_time : jsstring;
  sp_end_time : jsstring;
  sp_position : jsstring;
  sp_employee_id : option jsstring
}.

(** The calls of [fetch], relative to [API_BASE]. *)
Inductive request :=
  | GetEmployees                          (* GET  /employees/ *)
  | PostEmployee (body : employee_payload) (* POST /employees/ *)
  | PostShift (body : shift_payload)       (* POST /shifts/ *)
  | GetWeek (anyDate : jsstring).          (* GET  /schedule/week/?any_date_in_week= *)

(** A response: [res.ok], and what [res.json()] settles to, either the
    message of the error it rejects with or the parsed body. *)
Record response (A : Type) := Response {
  ok : bool;
  json : jsstring + A
}.
Arguments Response {A} _ _.
Arguments ok {A} _.
Arguments json {A} _.

(** How the promise of [fetch] settles; a rejection carries [err.message]. *)
Inductive settled (A : Type) :=
  | Rejected (message : jsstring)
  | Fulfilled (res : response A).
Arguments Rejected {A} _.
Arguments Fulfilled {A} _.

(** The body of the reply to a POST: the validation detail the server put
    in it, if any. *)
Definition post_body := option jsstring.

Record employee_record := EmployeeRecord {
  e_id : Z;
  e_full_name : jsstring;
  e_role : jsstring
}.

(** An option of [#shift-employee]: its value ([None] is the empty string,
    a number stands for its decimal text) and its label. *)
Record option_el := OptionEl {
  opt_value : option Z;
  opt_text : jsstring
}.

Record page := Page {
  value_of : field → jsstring;            (* the [.value] of the inputs *)
  schedule : container;                   (* #schedule-table-container *)
  employee_list : list jsstring;          (* the li texts of #employee-list *)
  employee_select : list option_el;       (* the options of #shift-employee *)
  alerts : list jsstring;                 (* messages shown by [alert], oldest first *)
  fetches : list request;                 (* calls of [fetch], oldest first *)
  realm : heap
}.

Definition alert (m : jsstring) (p : page) : page :=
  Page (value_of p) (schedule p) (employee_list p) (employee_select p)
       (alerts p ++ [m]) (fetches p) (realm p).

Definition fetch (r : request) (p : page) : page :=
  Page (value_of p) (schedule p) (employee_list p) (employee_select p)
       (alerts p) (fetches p ++ [r]) (realm p).

Definition set_values (v : field → jsstring) (p : page) : page :=
  Page v (schedule p) (employee_list p) (employee_select p)
       (alerts p) (fetches p) (realm p).

Definition set_value (f : field) (x : jsstring) (p : page) : page :=
  set_values (λ f', if decide (f' = f) then x else value_of p f') p.

(** lines 27-35 *)
Definition renderEmployeeList (employees : list employee_record) (p : page) : page :=
  Page (value_of p) (schedule p)
       (map (λ emp, e_full_name emp ++ js " – " ++ e_role emp) employees)
       (employee_select p) (alerts p) (fetches p) (realm p).

(** lines 37-46; rebuilding the options leaves the first one selected. *)
Definition fillEmployeeSelect (employees : list employee_record) (p : page) : page :=
  set_value shift_employee []
    (Page (value_of p) (schedule p) (employee_list p)
          (OptionEl None (js "- Seçilmedi -")
           :: map (λ emp, OptionEl (Some (e_id emp))
                            (e_full_name emp ++ js " (" ++ e_role emp ++ js ")"))
                  employees)
          (alerts p) (fetches p) (realm p)).

(** lines 15-25, given how the request settles *)
Definition loadEmployees (r : settled (list employee_record)) (p : page) : page :=
  let p := fetch GetEmployees p in
  match r with
  | Rejected m => alert m p
  | Fulfilled res =>
      if ok res then
        match json res with
        | inl m => alert m p
        | inr data => fillEmployeeSelect data (renderEmployeeList data p)
        end
      else alert (js "Çalışan listesi alınamadı") p
  end.

(** *** [loadWeekSchedule] (lines 130-139), one segment per [await] *)

(** up to [await fetch(...)] *)
Definition loadWeek_call (anyDate : jsstring) (p : page) : page :=
  fetch (GetWeek anyDate) p.

(** from the settling of [fetch] to [await res.json()]; [None]: the
    function has finished in its [catch] *)
Definition loadWeek_fetched (r : settled (list shift)) (p : page)
  : page * option (response (list shift)) :=
  match r with
  | Rejected m => (alert m p, None)
  | Fulfilled res =>
      if ok res then (p, Some res)
      else (alert (js "Haftalık program alınamadı") p, None)
  end.

(** from the settling of [res.json()] to the end *)
Definition loadWeek_parsed (res : response (list shift)) (p : page) : page :=
  match json res with
  | inl m => alert m p
  | inr shifts =>
      let '(h, c) := renderWeekTable (realm p) shifts in
      Page (value_of p) c (employee_list p) (employee_select p)
           (alerts p) (fetches p) h
  end.

(** the whole call, when nothing else runs in between *)
Definition loadWeekSchedule (anyDate : jsstring) (r : settled (list shift)) (p : page) : page :=
  match loadWeek_fetched r (loadWeek_call anyDate p) with
  | (p', Some res) => loadWeek_parsed res p'
  | (p', None) => p'
  end.

(** The click handler of [#load-week-btn] (lines 120-127). *)
Definition clickLoadWeek (week : settled (list shift)) (p : page) : page :=
  let val := value_of p week_date in
  if negb (nonempty val) then alert (js "Lütfen bir tarih seç.") p
  else loadWeekSchedule val week p.

(** The [DOMContentLoaded] handler (lines 4-13).  The three setup calls
    register the handlers below; [loadEmployees] catches its own errors, so
    the callback of [then] always runs.  [today] is the date of the clock,
    [new Date().toISOString().slice(0, 10)]. *)
Definition initialize (today : iso_date) (roster : settled (list employee_record))
    (week : settled (list shift)) (p : page) : page :=
  let p := loadEmployees roster p in
  let p := set_value week_date (date_key today) p in
  loadWeekSchedule (date_key today) week p.

Section Forms.

(** [form.reset()] of the two forms: which inputs each form holds and their
    default values are in the HTML page, not in app.js. *)
Variable reset_employee_form : (field → jsstring) → (field → jsstring).
Variable reset_shift_form : (field → jsstring) → (field → jsstring).

(** The submit handler of [#employee-form] (lines 50-75): [post] is how the
    POST settles, [roster] how the reload of the employees settles. *)
Definition submitEmployee (post : settled post_body)
    (roster : settled (list employee_record)) (p : page) : page :=
  let payload :=
    EmployeePayload
      (trim (value_of p emp_name))
      (trim (value_of p emp_role))
      (if nonempty (trim (value_of p emp_phone))
       then Some (trim (value_of p emp_phone)) else None)
      (if nonempty (value_of p emp_rate) then Some (value_of p emp_rate) else None)
      true in
  if negb (nonempty (ep_full_name payload)) || negb (nonempty (ep_role payload)) then
    alert (js "Ad soyad ve rol zorunludur.") p
  else
    let p := fetch (PostEmployee payload) p in
    match post with
    | Rejected m => alert m p
    | Fulfilled res =>
        if ok res then
          loadEmployees roster (set_values (reset_employee_form (value_of p)) p)
        else alert (js "Çalışan eklenemedi") p
    end.

(** The submit handler of [#shift-form] (lines 80-115): [post] is how the
    POST settles, [week] how the reload of the week settles. *)
Definition submitShift (post : settled post_body)
    (week : settled (list shift)) (p : page) : page :=
  let dateVal := value_of p shift_date in
  let start := value_of p shift_start in
  let end_ := value_of p shift_end in
  let position := trim (value_of p shift_position) in
  let empId := value_of p shift_employee in
  if negb (nonempty dateVal) || negb (nonempty start)
     || negb (nonempty end_) || negb (nonempty position) then
    alert (js "Tarih, saatler ve pozisyon zorunludur.") p
  else
    let payload :=
      ShiftPayload dateVal start end_ position
                   (if nonempty empId then Some empId else None) in
    let p := fetch (PostShift payload) p in
    match post with
    | Rejected m => alert m p
    | Fulfilled res =>
        if ok res then
          let p := set_values (reset_shift_form (value_of p)) p in
          let weekDate :=
            if nonempty (value_of p week_date) then value_of p week_date else dateVal in
          let p := set_value week_date weekDate p in
          loadWeekSchedule weekDate week p
        else alert (js "Vardiya kaydedilemedi") p
    end.

End Forms.

(** *** Calls of [loadWeekSchedule] in flight

    A call is suspended at each [await]; when the awaited promise settles,
    the rest of the call up to the next [await] runs on the page as it is
    then.  Nothing ties a settled promise to the latest call. *)

Inductive in_flight :=
  | Fetching                                  (* at [await fetch(...)] *)
  | Parsing (res : response (list shift)).    (* at [await res.json()] *)

Record browser := Browser {
  shown : page;
  calls : list (option in_flight)             (* by call number; [None]: finished *)
}.

Inductive event :=
  | Call (anyDate : jsstring)                         (* loadWeekSchedule(anyDate) *)
  | FetchSettled (i : nat) (r : settled (list shift))  (* the fetch of call i settles *)
  | JsonSettled (i : nat).                            (* the res.json() of call i settles *)

Definition react (b : browser) (e : event) : browser :=
  match e with
  | Call anyDate =>
      Browser (loadWeek_call anyDate (shown b)) (calls b ++ [Some Fetching])
  | FetchSettled i r =>
      match calls b !! i with
      | Some (Some Fetching) =>
          let '(p, next) := loadWeek_fetched r (shown b) in
          Browser p (<[i := Parsing <$> next]> (calls b))
      | _ => b
      end
  | JsonSettled i =>
      match calls b !! i with
      | Some (Some (Parsing res)) =>
          Browser (loadWeek_parsed res (shown b)) (<[i := None]> (calls b))
      | _ => b
      end
  end.

Definition run (b : browser) (trace : list event) : browser :=
  foldl react b trace.

(** All the ways two sequences of events can interleave. *)
Fixpoint interleave (xs : list event) : list event → list (list event) :=
  fix into (ys : list event) : list (list event) :=
    match xs, ys with
    | [], _ => [ys]
    | _, [] => [xs]
    | x :: xs', y :: ys' =>
        map (cons x) (interleave xs' ys) ++ map (cons y) (into ys')
    end.

(** ** Notions used in the statements *)

(** A well-formed store has the twelve built-in objects and no dangling
    reference. *)
Definition heap_ok (h : heap) : Prop :=
  (12 ≤ length h)%nat ∧
  ∀ r o d a, h !! r = Some o → assoc d (props o) = Some a → (a < length h)%nat.

(** The stores a page can have: the fresh one, and what a call of
    [renderWeekTable] leaves behind. *)
Inductive reachable : heap → Prop :=
  | reachable_new : reachable new_realm
  | reachable_render h shifts :
      reachable h → reachable (renderWeekTable h shifts).1.

(** The own date-keyed properties and the array elements of the object at a
    position. *)
Definition props_at (h : heap) (r : ref) : list (iso_date * ref) :=
  match h !! r with Some o => props o | None => [] end.

Definition elems_at (h : heap) (a : ref) : list shift :=
  match h !! a with Some o => elems o | None => [] end.

(** No assignment has reached [Object.prototype]. *)
Definition unpolluted (h : heap) : Prop :=
  props_at h object_prototype = [].

(** The name of a built-in member of [Object.prototype]. *)
Definition inherited_name (k : jsstring) : Prop :=
  is_Some (assoc k object_prototype_members).

(** *** The aggregation as the specification words it

    An insertion-ordered map from employee key to an insertion-ordered map
    from date to the shifts of that key and date, in source order. *)
Definition spec_table := list (jsstring * list (iso_date * list shift)).

Definition spec_insert (m : spec_table) (s : shift) : spec_table :=
  let row := default [] (assoc (empName s) m) in
  let b := default [] (assoc (date s) row) in
  assoc_set (empName s) (assoc_set (date s) (b ++ [s]) row) m.

Definition aggregate (shifts : list shift) : spec_table :=
  foldl spec_insert [] shifts.

(** The same table read off the objects of the grouping loop. *)
Definition row_of (h : heap) (r : ref) : list (iso_date * list shift) :=
  map (λ q, (q.1, elems_at h q.2)) (props_at h r).

Definition table_of (g : grouping) : spec_table :=
  map (λ p, (p.1, row_of (objects g) p.2)) (byEmployee g).

(** A key that [Object.prototype] can never answer for: not the name of a
    built-in member and not of the shape of a date. *)
Definition plain_key (k : jsstring) : Prop :=
  ¬ inherited_name k ∧ ∀ d, date_key d ≠ k.

Definition row_names (v : WeekView) : list jsstring := map fst (rows v).

(** The shift [s] is shown in the row named [k], in the column of its date. *)
Definition shown_in (v : WeekView) (k : jsstring) (s : shift) : Prop :=
  ∃ i cs c, (k, cs) ∈ rows v ∧ columns v !! i = Some (date s)
            ∧ cs !! i = Some c ∧ s ∈ c.

(** All the shifts of the table, row by row and cell by cell. *)
Definition all_buckets (v : WeekView) : list shift :=
  concat (concat (map snd (rows v))).

(** Sum of the sizes of all buckets. *)
Definition bucketed (v : WeekView) : nat := length (all_buckets v).

(** The employee keys of a list in order of first appearance. *)
Definition add_key (acc : list jsstring) (k : jsstring) : list jsstring :=
  if decide (k ∈ acc) then acc else acc ++ [k].

Definition first_seen (shifts : list shift) : list jsstring :=
  foldl add_key [] (map empName shifts).

(** The messages shown between two states of the page. *)
Definition reported (before after : page) : list jsstring :=
  drop (length (alerts before)) (alerts after).

(** The calls of [fetch] made between two states of the page. *)
Definition sent (before after : page) : list request :=
  drop (length (fetches before)) (fetches after).

(** A submission fails when the request is rejected (network failure) or
    answered with a status outside 200-299. *)
Definition failed {A} (r : settled A) : bool :=
  match r with
  | Rejected _ => true
  | Fulfilled res => negb (ok res)
  end.

(** Both required inputs of the employee form are filled in (line 59). *)
Definition employee_draft_complete (p : page) : bool :=
  nonempty (trim (value_of p emp_name)) && nonempty (trim (value_of p emp_role)).

(** All four required inputs of the shift form are filled in (line 88). *)
Definition shift_draft_complete (p : page) : bool :=
  nonempty (value_of p shift_date) && nonempty (value_of p shift_start)
  && nonempty (value_of p shift_end) && nonempty (trim (value_of p shift_position)).

(** The call whose [res.json()] settled last in a trace. *)
Definition last_parsed (trace : list event) : option nat :=
  foldl (λ acc e, match e with JsonSettled i => Some i | _ => acc end) None trace.

(** *** Invariants of the grouping loop *)

(** The store only grows: an object keeps its elements and its own
    properties. *)
Definition grows (h h' : heap) : Prop :=
  ∀ r o, h !! r = Some o →
    ∃ o', h' !! r = Some o'
          ∧ (∀ s, s ∈ elems o → s ∈ elems o')
          ∧ (∀ d a, assoc d (props o) = Some a → assoc d (props o') = Some a).

(** The state of the loop has no dangling reference. *)
Definition grouping_ok (g : grouping) : Prop :=
  heap_ok (objects g)
  ∧ ∀ k r, assoc k (byEmployee g) = Some r → (r < length (objects g))%nat.

(** What one step may do to the state: the store grows and the rows that
    exist stay where they are. *)
Definition extends (g g' : grouping) : Prop :=
  grows (objects g) (objects g')
  ∧ ∀ k r, assoc k (byEmployee g) = Some r → assoc k (byEmployee g') = Some r.

(** [s] sits in the array that the row object of [k] holds under the date
    of [s] as an own property. *)
Definition placed (g : grouping) (k : jsstring) (s : shift) : Prop :=
  ∃ r a o, assoc k (byEmployee g) = Some r
           ∧ own_date (objects g) r (date s) = Some a
           ∧ objects g !! a = Some o
           ∧ s ∈ elems o.

(** The positions of the row objects and of the arrays they hold. *)
Definition row_refs (g : grouping) : list ref := map snd (byEmployee g).

Definition array_refs (g : grouping) : list ref :=
  concat (map (λ p, map snd (props_at (objects g) p.2)) (byEmployee g)).

(** Rows and arrays are separate objects created by the loop, and
    [Object.prototype] is untouched. *)
Definition tidy (g : grouping) : Prop :=
  grouping_ok g
  ∧ unpolluted (objects g)
  ∧ NoDup (row_refs g ++ array_refs g)
  ∧ Forall (λ x, 12 ≤ x < length (objects g))%nat (row_refs g ++ array_refs g).

(** The shifts of a table, row by row and bucket by bucket. *)
Definition content (m : spec_table) : list shift :=
  concat (map (λ row, concat (map snd row.2)) m).

(** Every row has each date once, and only dates of [D]. *)
Definition rows_within (D : list iso_date) (m : spec_table) : Prop :=
  Forall (λ row, NoDup (map fst row.2) ∧ ∀ d, d ∈ map fst row.2 → d ∈ D) m.

(** *** Notions for the rest of the code *)

(** What a load gets to work with: the parsed body of a response with a
    success status, or nothing. *)
Definition parsed {A} (r : settled A) : option A :=
  match r with
  | Rejected _ => None
  | Fulfilled res =>
      if ok res then match json res with inr a => Some a | inl _ => None end
      else None
  end.

(** A date as the number YYYYMMDD. *)
Definition digit_val (d : digit) : N := digit_code d - 48.

Definition date_number (d : iso_date) : N :=
  ((((((digit_val (y1 d) * 10 + digit_val (y2 d)) * 10 + digit_val (y3 d)) * 10
      + digit_val (y4 d)) * 10 + digit_val (m1 d)) * 10 + digit_val (m2 d)) * 10
   + digit_val (d1 d)) * 10 + digit_val (d2 d).

(** The dates of a list in order of first appearance. *)
Definition first_dates (shifts : list shift) : list iso_date :=
  foldl (λ acc d, if decide (d ∈ acc) then acc else acc ++ [d]) [] (map date shifts).

(** The order in which [Object.entries] lists keys created in the order
    [ks]. *)
Definition key_le (a b : N * jsstring) : Prop := (a.1 <= b.1)%N.

#[global] Instance key_le_dec : RelDecision key_le.
Proof. intros a b. unfold key_le. apply _. Defined.

Definition key_order (ks : list jsstring) : list jsstring :=
  map snd (merge_sort key_le (omap (λ k, n ← array_index k; Some (n, k)) ks))
  ++ filter (λ k, array_index k = None) ks.

(** The shifts of one employee key and one date, in source order. *)
Definition bucket_of (shifts : list shift) (k : jsstring) (d : iso_date) : list shift :=
  filter (λ s, empName s = k ∧ date s = d) shifts.

(** The view as a function of the list alone. *)
Definition expected_view (shifts : list shift) : WeekView :=
  let dates := merge_sort date_le (first_dates shifts) in
  {| columns := dates;
     rows := map (λ k, (k, map (bucket_of shifts k) dates))
                 (key_order (first_seen shifts)) |}.

(** The list and the options drawn from a roster. *)
Definition roster_items (data : list employee_record) : list jsstring :=
  map (λ emp, e_full_name emp ++ js " – " ++ e_role emp) data.

Definition roster_options (data : list employee_record) : list option_el :=
  OptionEl None (js "- Seçilmedi -")
  :: map (λ emp, OptionEl (Some (e_id emp))
                   (e_full_name emp ++ js " (" ++ e_role emp ++ js ")")) data.

(** Whitespace at neither end. *)
Definition trimmed (s : jsstring) : Prop :=
  (∀ c, head s = Some c → is_space c = false)
  ∧ (∀ c, last s = Some c → is_space c = false).


(** The payloads built from the inputs (lines 52-58 and 93-99). *)
Definition employee_draft (p : page) : employee_payload :=
  EmployeePayload
    (trim (value_of p emp_name))
    (trim (value_of p emp_role))
    (if nonempty (trim (value_of p emp_phone))
     then Some (trim (value_of p emp_phone)) else None)
    (if nonempty (value_of p emp_rate) then Some (value_of p emp_rate) else None)
    true.

Definition shift_draft (p : page) : shift_payload :=
  ShiftPayload (value_of p shift_date) (value_of p shift_start) (value_of p shift_end)
               (trim (value_of p shift_position))
               (if nonempty (value_of p shift_employee)
                then Some (value_of p shift_employee) else None).

(** The week reloaded after a shift is saved (line 109): the date of the
    week field as the reset of the form leaves it, else the date submitted. *)
Definition week_anchor (reset : (field → jsstring) → field → jsstring) (p : page) : jsstring :=
  if nonempty (reset (value_of p) week_date) then reset (value_of p) week_date
  else value_of p shift_date.

(** A request for a week names a date. *)
Definition dated (r : request) : Prop :=
  match r with
  | GetWeek anyDate => anyDate ≠ []
  | _ => True
  end.

(** The value of a list of digits read as a decimal numeral. *)
Fixpoint positional (l : list N) : N :=
  match l with
  | [] => 0
  | x :: l' => x * 10 ^ N.of_nat (length l') + positional l'
  end.

Definition digit_vals (d : iso_date) : list N :=
  [digit_val (y1 d); digit_val (y2 d); digit_val (y3 d); digit_val (y4 d);
   digit_val (m1 d); digit_val (m2 d); digit_val (d1 d); digit_val (d2 d)].

(** The shifts a table of the specification holds under a key and a date. *)
Definition lookup2 (m : spec_table) (k : jsstring) (d : iso_date) : list shift :=
  default [] (assoc d (default [] (assoc k m))).

(** Sample data for the examples. *)
Definition sample_shift (d : iso_date) (e : value) : shift :=
  Shift d (js "09:00") (js "17:00") (js "Cashier") e.

Definition named (name : string) : value := VEmployee (Some (js name)).

Definition sample_values (f : field) : jsstring :=
  match f with
  | emp_name => js "Ada Lovelace"
  | emp_role => js "Cashier"
  | shift_date => js "2024-01-02"
  | shift_start => js "09:00"
  | shift_end => js "17:00"
  | shift_position => js "Cashier"
  | _ => []
  end.

Definition sample_page : page :=
  Page sample_values Blank [] [] [] [] new_realm.

Definition sample_week : list shift :=
  [sample_shift (ymd 2024 1 2) (named "Ada"); sample_shift (ymd 2024 1 1) VNull;
   sample_shift (ymd 2024 1 2) (named "Ada")].

(** * Properties *)

(** ** The order on strings *)

Lemma str_ltb_irrefl a : str_ltb a a = false.
Proof.
  induction a as [|x a IH]; simpl; [done|].
  by rewrite N.ltb_irrefl, N.eqb_refl, IH.
Qed.

Lemma str_ltb_trans a b c :
  str_ltb a b = true → str_ltb b c = true → str_ltb a c = true.
Proof.
  revert b c. induction a as [|x a IH]; intros [|y b] [|z c]; simpl; try done.
  intros Hab Hbc.
  destruct (N.ltb_spec x y), (N.eqb_spec x y), (N.ltb_spec y z), (N.eqb_spec y z),
    (N.ltb_spec x z), (N.eqb_spec x z); simpl in *; try done; try lia.
  eauto.
Qed.

Lemma str_ltb_asym a b : str_ltb a b = true → str_ltb b a = false.
Proof.
  intros Hab. destruct (str_ltb b a) eqn:Hba; [|done].
  pose proof (str_ltb_trans _ _ _ Hab Hba) as H.
  by rewrite str_ltb_irrefl in H.
Qed.

Lemma str_ltb_connex a b : str_ltb a b = false → str_ltb b a = false → a = b.
Proof.
  revert b. induction a as [|x a IH]; intros [|y b]; simpl; try done.
  intros Hab Hba.
  destruct (N.ltb_spec x y), (N.eqb_spec x y), (N.ltb_spec y x), (N.eqb_spec y x);
    simpl in *; try done; try lia.
  subst. f_equal. by apply IH.
Qed.

#[global] Instance date_le_total : Total date_le.
Proof.
  intros a b. unfold date_le, str_le.
  destruct (str_ltb (date_key b) (date_key a)) eqn:E; [right|by left].
  by apply str_ltb_asym.
Qed.

#[global] Instance date_le_trans : Transitive date_le.
Proof.
  intros a b c. unfold date_le, str_le. intros Hab Hbc.
  destruct (str_ltb (date_key c) (date_key a)) eqn:Hca; [|done].
  destruct (str_ltb (date_key a) (date_key b)) eqn:Hlt.
  - by rewrite (str_ltb_trans _ _ _ Hca Hlt) in Hbc.
  - rewrite (str_ltb_connex _ _ Hlt Hab) in Hca. congruence.
Qed.

Lemma digit_code_inj a b : digit_code a = digit_code b → a = b.
Proof. by destruct a, b. Qed.

#[global] Instance date_key_inj : Inj (=) (=) date_key.
Proof.
  intros [] []; unfold date_key; simpl. intros H.
  injection H as ?%digit_code_inj ?%digit_code_inj ?%digit_code_inj ?%digit_code_inj
    ?%digit_code_inj ?%digit_code_inj ?%digit_code_inj ?%digit_code_inj.
  by subst.
Qed.

(** ** The set of dates and the header *)

Lemma visit_datesSet g s :
  datesSet (visit g s)
  = if decide (date s ∈ datesSet g) then datesSet g else datesSet g ++ [date s].
Proof.
  unfold visit, line158, line157, line156, line155; simpl.
  repeat (case_match; simpl); done.
Qed.

Lemma group_datesSet_from g shifts :
  NoDup (datesSet g) →
  NoDup (datesSet (foldl visit g shifts))
  ∧ ∀ d, d ∈ datesSet (foldl visit g shifts)
         ↔ d ∈ datesSet g ∨ ∃ s, s ∈ shifts ∧ date s = d.
Proof.
  revert g. induction shifts as [|s shifts IH]; intros g Hnd; simpl.
  - split; [done|]. intros d. split; [by left|].
    intros [?|(s & Hs & _)]; [done|]. by apply elem_of_nil in Hs.
  - destruct (IH (visit g s)) as [Hnd' Hin].
    { rewrite visit_datesSet. case_decide; [done|].
      apply NoDup_app. repeat split; [done| |apply NoDup_singleton].
      intros x Hx ->%list_elem_of_singleton. done. }
    split; [done|]. intros d. rewrite Hin, visit_datesSet.
    split.
    + intros [Hd|(s' & Hs' & <-)].
      * case_decide; [by left|].
        apply elem_of_app in Hd as [?| ->%list_elem_of_singleton]; [by left|].
        right. exists s. split; [left|done].
      * right. exists s'. split; [by right|done].
    + intros [Hd|(s' & Hs' & <-)].
      * left. case_decide; [done|]. apply elem_of_app. by left.
      * apply elem_of_cons in Hs' as [->|Hs'].
        -- left. case_decide; [done|]. apply elem_of_app. right. left.
        -- right. by exists s'.
Qed.

Lemma group_datesSet h shifts :
  NoDup (datesSet (group h shifts))
  ∧ ∀ d, d ∈ datesSet (group h shifts) ↔ ∃ s, s ∈ shifts ∧ date s = d.
Proof.
  destruct (group_datesSet_from (Grouping [] [] h) shifts) as [Hnd Hin].
  { simpl. apply NoDup_nil_2. }
  split; [done|]. intros d. rewrite Hin. simpl.
  split; [intros [H|H]; [by apply elem_of_nil in H|done]|by right].
Qed.

Lemma strictly_sorted (l : list iso_date) :
  NoDup l → StronglySorted date_le l →
  StronglySorted str_lt (map date_key l).
Proof.
  induction 2 as [|x l Hl IH Hx]; simpl; constructor.
  - apply IH. by eapply NoDup_cons_1_2.
  - apply Forall_fmap. eapply Forall_impl.
    { apply Forall_and. split; [exact Hx|].
      apply Forall_forall. intros y Hy.
      instantiate (1 := λ y, y ≠ x). simpl.
      intros ->. by eapply NoDup_cons_1_1. }
    simpl. intros y [Hle Hne]. unfold date_le, str_le, str_lt in *.
    destruct (str_ltb (date_key x) (date_key y)) eqn:E; [done|].
    destruct Hne. apply (inj date_key). by apply str_ltb_connex.
Qed.

(** C2: the header dates are exactly the dates that occur in the input,
    each once, in ascending order of their strings; the header row of the
    table is the fixed first cell followed by these dates. *)
Theorem C2_columns_are_the_sorted_distinct_dates (h : heap) (shifts : list shift) :
  StronglySorted str_lt (map date_key (columns (week_view h shifts)))
  ∧ NoDup (columns (week_view h shifts))
  ∧ (∀ d, d ∈ columns (week_view h shifts) ↔ ∃ s, s ∈ shifts ∧ date s = d)
  ∧ match (renderWeekTable h shifts).2 with
    | Table head _ => head = js "Çalışan" :: map date_key (columns (week_view h shifts))
    | Notice _ => shifts = []
    | Blank => False
    end.
Proof.
  unfold week_view, view_of; simpl. unfold sorted_dates.
  destruct (group_datesSet h shifts) as [Hnd Hin].
  assert (Hp : merge_sort date_le (datesSet (group h shifts)) ≡ₚ datesSet (group h shifts))
    by apply merge_sort_Permutation.
  assert (Hnd' : NoDup (merge_sort date_le (datesSet (group h shifts))))
    by (by rewrite Hp).
  split_and!.
  - apply strictly_sorted; [done|]. apply (StronglySorted_merge_sort _).
  - done.
  - intros d. rewrite Hp. apply Hin.
  - by destruct shifts.
Qed.

(** ** The handlers *)

Lemma reported_alert p p' m : alerts p' = alerts p ++ [m] → reported p p' = [m].
Proof. unfold reported. intros ->. by rewrite drop_app_length. Qed.

Lemma reported_none p p' : alerts p' = alerts p → reported p p' = [].
Proof. unfold reported. intros ->. by rewrite drop_all. Qed.

Lemma sent_none p p' : fetches p' = fetches p → sent p p' = [].
Proof. unfold sent. intros ->. by rewrite drop_all. Qed.

Lemma sent_one p p' r : fetches p' = fetches p ++ [r] → sent p p' = [r].
Proof. unfold sent. intros ->. by rewrite drop_app_length. Qed.

(** C6: with no shifts there are no rows and no columns, [renderWeekTable]
    writes the notice, and a week whose response is the empty list ends with
    that notice on the page and no message to the user. *)
Theorem C6_empty_week_is_a_notice (h : heap) (anyDate : jsstring) (p : page) :
  week_view h [] = {| columns := []; rows := [] |}
  ∧ renderWeekTable h [] = (h, Notice no_shifts_text)
  ∧ schedule (loadWeekSchedule anyDate (Fulfilled (Response true (inr []))) p)
    = Notice no_shifts_text
  ∧ reported p (loadWeekSchedule anyDate (Fulfilled (Response true (inr []))) p) = []
  ∧ realm (loadWeekSchedule anyDate (Fulfilled (Response true (inr []))) p) = realm p.
Proof.
  repeat split. by apply reported_none.
Qed.

(** C7: an employee draft whose name or role is empty after trimming is
    answered with the message of line 60 and [fetch] is not called. *)
Theorem C7_incomplete_employee_draft_is_not_sent
    (reset : (field → jsstring) → field → jsstring)
    (post : settled post_body) (roster : settled (list employee_record)) (p : page) :
  trim (value_of p emp_name) = [] ∨ trim (value_of p emp_role) = [] →
  fetches (submitEmployee reset post roster p) = fetches p
  ∧ sent p (submitEmployee reset post roster p) = []
  ∧ reported p (submitEmployee reset post roster p) = [js "Ad soyad ve rol zorunludur."].
Proof.
  intros H. unfold submitEmployee. cbv zeta. simpl ep_full_name. simpl ep_role.
  assert (negb (nonempty (trim (value_of p emp_name)))
          || negb (nonempty (trim (value_of p emp_role))) = true) as ->.
  { destruct H as [-> | ->]; simpl; [done|]. apply orb_true_r. }
  split_and!; [done|by apply sent_none|by apply reported_alert].
Qed.

Lemma C7_incomplete_employee_draft_witness :
  trim (value_of (set_value emp_name (js "   ") sample_page) emp_name) = []
  ∧ sent (set_value emp_name (js "   ") sample_page)
         (submitEmployee id (Rejected []) (Rejected [])
            (set_value emp_name (js "   ") sample_page)) = [].
Proof.
  assert (H : trim (value_of (set_value emp_name (js "   ") sample_page) emp_name) = [])
    by (vm_compute; reflexivity).
  split; [exact H|].
  exact (proj1 (proj2 (C7_incomplete_employee_draft_is_not_sent id (Rejected []) (Rejected [])
                         (set_value emp_name (js "   ") sample_page) (or_introl H)))).
Defined.

(** C8: when the POST of a shift is rejected or answered with a non-success
    status, the handler shows one message and nothing else: the container,
    the inputs and the store are as before and no week is requested. *)
Theorem C8_failed_shift_submission_leaves_the_page
    (reset : (field → jsstring) → field → jsstring)
    (post : settled post_body) (week : settled (list shift)) (p : page) :
  failed post = true →
  schedule (submitShift reset post week p) = schedule p
  ∧ value_of (submitShift reset post week p) = value_of p
  ∧ realm (submitShift reset post week p) = realm p
  ∧ (∃ m, reported p (submitShift reset post week p) = [m])
  ∧ (∀ anyDate, GetWeek anyDate ∉ sent p (submitShift reset post week p)).
Proof.
  intros Hfail. unfold submitShift. cbv zeta.
  destruct (negb (nonempty (value_of p shift_date)) || _ || _ || _).
  - split_and!; try done.
    + eexists. by apply reported_alert.
    + intros a. rewrite (sent_none p); [apply not_elem_of_nil|done].
  - destruct post as [m|res]; simpl in Hfail.
    + split_and!; try done.
      * eexists. by apply reported_alert.
      * intros a. erewrite sent_one; [|done].
        by intros ?%list_elem_of_singleton.
    + apply negb_true_iff in Hfail. rewrite Hfail.
      split_and!; try done.
      * eexists. by apply reported_alert.
      * intros a. erewrite sent_one; [|done].
        by intros ?%list_elem_of_singleton.
Qed.

Lemma C8_failed_shift_submission_witness :
  failed (Fulfilled (Response false (inr None)) : settled post_body) = true
  ∧ schedule (submitShift id (Fulfilled (Response false (inr None))) (Rejected []) sample_page)
    = schedule sample_page.
Proof.
  split; [reflexivity|].
  exact (proj1 (C8_failed_shift_submission_leaves_the_page id
                  (Fulfilled (Response false (inr None))) (Rejected []) sample_page eq_refl)).
Defined.

(** C4 as the specification words it, refuted: the reply to a POST says
    status 400 and carries a validation detail, and the message shown is
    not that detail, for the employee form and for the shift form. *)
Lemma C4_validation_detail_is_not_shown :
  let detail := js "full_name: Ensure this field has no more than 150 characters." in
  let reply : settled post_body := Fulfilled (Response false (inr (Some detail))) in
  reported sample_page (submitEmployee id reply (Rejected []) sample_page) ≠ [detail]
  ∧ reported sample_page (submitShift id reply (Rejected []) sample_page) ≠ [detail].
Proof. split; vm_compute; discriminate. Qed.

(** C4, amended: a create request answered with a non-success status is
    always reported with the fixed message of its form, whatever the body of
    the reply holds; the body is not looked at. *)
Theorem C4_failed_create_reports_the_fixed_message
    (reset_e reset_s : (field → jsstring) → field → jsstring)
    (roster : settled (list employee_record)) (week : settled (list shift))
    (res_e res_s : response post_body) (pe ps : page) :
  employee_draft_complete pe = true →
  shift_draft_complete ps = true →
  ok res_e = false →
  ok res_s = false →
  reported pe (submitEmployee reset_e (Fulfilled res_e) roster pe) = [js "Çalışan eklenemedi"]
  ∧ reported ps (submitShift reset_s (Fulfilled res_s) week ps) = [js "Vardiya kaydedilemedi"].
Proof.
  unfold employee_draft_complete, shift_draft_complete.
  intros [He1 He2]%andb_true_iff [[[Hs1 Hs2]%andb_true_iff Hs3]%andb_true_iff Hs4]%andb_true_iff
    Hoe Hos.
  split.
  - unfold submitEmployee. cbv zeta. simpl ep_full_name. simpl ep_role.
    rewrite He1, He2, Hoe. simpl. by apply reported_alert.
  - unfold submitShift. cbv zeta.
    rewrite Hs1, Hs2, Hs3, Hs4, Hos. simpl. by apply reported_alert.
Qed.

Lemma C4_failed_create_witness :
  employee_draft_complete sample_page = true
  ∧ shift_draft_complete sample_page = true
  ∧ ok (Response false (inr (Some (js "role: This field is required."))) : response post_body)
    = false
  ∧ reported sample_page
      (submitEmployee id
         (Fulfilled (Response false (inr (Some (js "role: This field is required.")))))
         (Rejected []) sample_page)
    = [js "Çalışan eklenemedi"].
Proof.
  assert (He : employee_draft_complete sample_page = true) by (vm_compute; reflexivity).
  assert (Hs : shift_draft_complete sample_page = true) by (vm_compute; reflexivity).
  split_and!; [exact He|exact Hs|reflexivity|].
  exact (proj1 (C4_failed_create_reports_the_fixed_message id id (Rejected []) (Rejected [])
                  (Response false (inr (Some (js "role: This field is required."))))
                  (Response false (inr None))
                  sample_page sample_page He Hs eq_refl eq_refl)).
Defined.

(** ** Calls in flight *)

Lemma loadWeek_parsed_shifts (p : page) (l : list shift) :
  loadWeek_parsed (Response true (inr l)) p
  = Page (value_of p) (renderWeekTable (realm p) l).2 (employee_list p)
         (employee_select p) (alerts p) (fetches p) (renderWeekTable (realm p) l).1.
Proof. unfold loadWeek_parsed. simpl. by destruct (renderWeekTable _ _). Qed.

(** A call that runs alone does what [loadWeekSchedule] says. *)
Lemma run_alone (p : page) (anyDate : jsstring) (r : settled (list shift)) :
  shown (run (Browser p []) [Call anyDate; FetchSettled 0 r; JsonSettled 0])
  = loadWeekSchedule anyDate r p.
Proof.
  unfold run, loadWeekSchedule. cbn [foldl react calls shown app lookup list_lookup].
  destruct (loadWeek_fetched r (loadWeek_call anyDate p)) as [p' [res|]]; reflexivity.
Qed.

(** Whatever happened before, a response that is parsed replaces the table
    on the page; nothing asks which call it belongs to. *)
Lemma parsed_response_overwrites (b : browser) (trace : list event) (i : nat)
    (shifts : list shift) :
  calls (run b trace) !! i = Some (Some (Parsing (Response true (inr shifts)))) →
  schedule (shown (run b (trace ++ [JsonSettled i])))
  = (renderWeekTable (realm (shown (run b trace))) shifts).2.
Proof.
  intros Hi. unfold run in *. rewrite foldl_snoc. cbn [react]. rewrite Hi.
  cbn [shown]. by rewrite loadWeek_parsed_shifts.
Qed.

(** C9: a week is requested for [a1] and, while that call is in flight, for
    [a2].  However the settling of the four promises interleaves, both calls
    finish and the table on the page is built from the response whose
    [res.json()] settled last; when that is the response to the first call,
    the week requested last has been overwritten. *)
Theorem C9_last_settled_response_is_shown
    (p : page) (a1 a2 : jsstring) (l1 l2 : list shift) :
  let first := [FetchSettled 0 (Fulfilled (Response true (inr l1))); JsonSettled 0] in
  let second :=
    [Call a2; FetchSettled 1 (Fulfilled (Response true (inr l2))); JsonSettled 1] in
  Forall (λ trace,
      let b := run (Browser p []) (Call a1 :: trace) in
      calls b = [None; None]
      ∧ fetches (shown b) = fetches p ++ [GetWeek a1; GetWeek a2]
      ∧ match last_parsed trace with
        | Some 0%nat =>
            schedule (shown b)
            = (renderWeekTable (renderWeekTable (realm p) l2).1 l1).2
        | Some 1%nat =>
            schedule (shown b)
            = (renderWeekTable (renderWeekTable (realm p) l1).1 l2).2
        | _ => False
        end)
    (interleave first second)
  ∧ [Call a2; FetchSettled 1 (Fulfilled (Response true (inr l2))); JsonSettled 1;
     FetchSettled 0 (Fulfilled (Response true (inr l1))); JsonSettled 0]
    ∈ interleave first second.
Proof.
  cbv zeta. split.
  - cbn [interleave map app].
    repeat apply Forall_cons_2; try apply Forall_nil_2.
    all: unfold run, last_parsed.
    all: cbn [foldl react calls shown app lookup list_lookup insert list_insert
              fmap option_fmap option_map loadWeek_call loadWeek_fetched ok json].
    all: rewrite !loadWeek_parsed_shifts.
    all: unfold loadWeek_call, fetch; cbn [fetches realm].
    all: (split_and!; [done|by rewrite <- (assoc_L (++))|done]).
  - cbn [interleave map app].
    repeat (apply elem_of_cons; first [by left|right]).
Qed.

(** ** Own properties *)

Section assoc_facts.
Context {K V : Type} `{EqDecision K}.
Implicit Types (k : K) (v : V) (l : list (K * V)).

Lemma assoc_set_eq k v l : assoc k (assoc_set k v l) = Some v.
Proof.
  induction l as [|[k' v'] l IH]; simpl.
  - by rewrite decide_True.
  - case_decide; simpl; [by rewrite decide_True|by rewrite decide_False].
Qed.

Lemma assoc_set_ne k k' v l : k ≠ k' → assoc k' (assoc_set k v l) = assoc k' l.
Proof.
  intros Hne. induction l as [|[k0 v0] l IH]; simpl.
  - by rewrite decide_False.
  - destruct (decide (k0 = k)) as [->|]; simpl.
    + by rewrite !decide_False.
    + by rewrite IH.
Qed.

Lemma assoc_set_keeps k k' v v' l :
  assoc k l = None ∨ assoc k l = Some v →
  assoc k' l = Some v' → assoc k' (assoc_set k v l) = Some v'.
Proof.
  intros Hk Hk'. destruct (decide (k = k')) as [->|Hne].
  - rewrite assoc_set_eq. destruct Hk; congruence.
  - by rewrite assoc_set_ne.
Qed.

Lemma assoc_snoc k k' v l :
  assoc k (l ++ [(k', v)])
  = match assoc k l with
    | Some x => Some x
    | None => if decide (k' = k) then Some v else None
    end.
Proof.
  induction l as [|[k0 v0] l IH]; simpl; [done|].
  destruct (decide (k0 = k)); [done|apply IH].
Qed.

Lemma assoc_Some_elem k v l : assoc k l = Some v → (k, v) ∈ l.
Proof.
  induction l as [|[k0 v0] l IH]; simpl; [done|].
  case_decide; [intros [= ->]; subst; left|intros ?; right; auto].
Qed.

Lemma assoc_None_fst k l : assoc k l = None → k ∉ map fst l.
Proof.
  induction l as [|[k0 v0] l IH]; simpl; [intros _; apply not_elem_of_nil|].
  case_decide; [done|]. intros ?. apply not_elem_of_cons. auto.
Qed.

End assoc_facts.

Lemma assoc_date_key (k : jsstring) (l : list (iso_date * ref)) (a : ref) :
  assoc k (map (λ p, (date_key p.1, p.2)) l) = Some a →
  ∃ d, date_key d = k ∧ assoc d l = Some a.
Proof.
  induction l as [|[d0 a0] l IH]; simpl; [done|].
  destruct (decide (date_key d0 = k)) as [<-|Hne].
  - intros [= ->]. exists d0. by rewrite decide_True.
  - intros (d & <- & Hd)%IH. exists d. split; [done|].
    rewrite decide_False; [done|]. by intros ->.
Qed.

Lemma plain_key_not_inherited (h : heap) (k : jsstring) :
  plain_key k → inherited h k = None.
Proof.
  intros [Hb%eq_None_not_Some Hd]. unfold inherited. rewrite Hb.
  destruct (h !! object_prototype) as [o|]; simpl; [|done].
  destruct (assoc k (map _ _)) as [a|] eqn:E; [|done].
  apply assoc_date_key in E as (d & Hk & _). by destruct (Hd d).
Qed.

Lemma member_is_built_in (k : jsstring) (r : ref) :
  assoc k object_prototype_members = Some r → (r < 12)%nat.
Proof.
  unfold object_prototype_members. cbn [assoc].
  repeat (case_decide; [intros [= <-]; lia|]). done.
Qed.

(** ** The store only grows *)

#[global] Instance grows_preorder : PreOrder grows.
Proof.
  split.
  - intros h r o Hr. exists o. split_and!; auto.
  - intros h1 h2 h3 H12 H23 r o Hr.
    destruct (H12 _ _ Hr) as (o2 & Hr2 & He2 & Hp2).
    destruct (H23 _ _ Hr2) as (o3 & Hr3 & He3 & Hp3).
    exists o3. split_and!; auto.
Qed.

Lemma grows_alloc h o : grows h (h ++ [o]).
Proof.
  intros r o' Hr. exists o'. split_and!; [|done..].
  by apply lookup_app_l_Some.
Qed.

Lemma grows_push h a s : grows h (push h a s).
Proof.
  intros r o Hr. unfold push. destruct (decide (a = r)) as [->|Hne].
  - rewrite list_lookup_alter_eq, Hr. simpl. eexists. split_and!; [done| |done].
    simpl. intros s' Hs'. apply elem_of_app. by left.
  - rewrite list_lookup_alter_ne by done. exists o. split_and!; auto.
Qed.

Lemma grows_put h r d a :
  own_date h r d = None ∨ own_date h r d = Some a →
  grows h (put_date h r d a).
Proof.
  intros Hown r' o Hr. unfold put_date. destruct (decide (r = r')) as [->|Hne].
  - rewrite list_lookup_alter_eq, Hr. simpl. eexists. split_and!; [done..|].
    simpl. intros d' a' Hd'. unfold own_date in Hown. rewrite Hr in Hown. simpl in Hown.
    by eapply assoc_set_keeps.
  - rewrite list_lookup_alter_ne by done. exists o. split_and!; auto.
Qed.

Lemma heap_ok_alloc h : heap_ok h → heap_ok (h ++ [Object [] []]).
Proof.
  intros [Hlen Href]. split; rewrite length_app; simpl; [lia|].
  intros r o d a Hr Ha. apply lookup_app_Some in Hr as [Hr|[_ Hr]].
  - specialize (Href _ _ _ _ Hr Ha). lia.
  - destruct (r - length h)%nat; simplify_eq/=.
Qed.

Lemma heap_ok_push h a s : heap_ok h → heap_ok (push h a s).
Proof.
  intros [Hlen Href]. unfold push. split; rewrite length_alter; [done|].
  intros r o d a'. destruct (decide (a = r)) as [->|Hne].
  - rewrite list_lookup_alter_eq. destruct (h !! r) as [o0|] eqn:E; [|done].
    simpl. intros [= <-]. simpl. eauto.
  - rewrite list_lookup_alter_ne by done. eauto.
Qed.

Lemma heap_ok_put h r d a :
  heap_ok h → (a < length h)%nat → heap_ok (put_date h r d a).
Proof.
  intros [Hlen Href] Ha. unfold put_date. split; rewrite length_alter; [done|].
  intros r' o d' a'. destruct (decide (r = r')) as [->|Hne].
  - rewrite list_lookup_alter_eq. destruct (h !! r') as [o0|] eqn:E; [|done].
    simpl. intros [= <-]. simpl. destruct (decide (d = d')) as [->|Hd].
    + rewrite assoc_set_eq. by intros [= <-].
    + rewrite assoc_set_ne by done. eauto.
  - rewrite list_lookup_alter_ne by done. eauto.
Qed.

Lemma own_date_valid h r d a : heap_ok h → own_date h r d = Some a → (a < length h)%nat.
Proof.
  intros [_ Href]. unfold own_date.
  destruct (h !! r) as [o|] eqn:E; simpl; [|done]. eauto.
Qed.

Lemma get_date_valid h r d a : heap_ok h → get_date h r d = Some a → (a < length h)%nat.
Proof.
  intros Hok. unfold get_date.
  destruct (own_date h r d) as [a0|] eqn:E.
  - intros [= <-]. by eapply own_date_valid.
  - by apply own_date_valid.
Qed.

(** ** Invariants of the grouping loop *)

#[global] Instance extends_preorder : PreOrder extends.
Proof.
  split.
  - intros g. split; [reflexivity|auto].
  - intros g1 g2 g3 [H12 K12] [H23 K23]. split; [by etrans|auto].
Qed.

Lemma get_row_valid g k r :
  grouping_ok g → get_row g k = Some r → (r < length (objects g))%nat.
Proof.
  intros [[Hlen Href] Hrows]. unfold get_row.
  destruct (assoc k (byEmployee g)) as [r0|] eqn:E.
  - intros [= <-]. eauto.
  - unfold inherited.
    destruct (assoc k object_prototype_members) as [r0|] eqn:Eb.
    + intros [= <-]. apply member_is_built_in in Eb. lia.
    + destruct (objects g !! object_prototype) as [o|] eqn:Eo; simpl; [|done].
      intros (d & _ & Hd)%assoc_date_key. eauto.
Qed.

Lemma line155_ok k g : grouping_ok g → grouping_ok (line155 k g) ∧ extends g (line155 k g).
Proof.
  intros Hok. unfold line155. destruct (get_row g k) as [r|] eqn:E.
  - split; [done|reflexivity].
  - destruct Hok as [Hh Hrows]. split; [split|split]; simpl.
    + by apply heap_ok_alloc.
    + intros k' r'. rewrite assoc_snoc, length_app. simpl.
      destruct (assoc k' (byEmployee g)) as [r0|] eqn:E'.
      * intros [= <-]. apply Hrows in E'. lia.
      * case_decide; [|done]. intros [= <-]. lia.
    + apply grows_alloc.
    + intros k' r' Hk'. by rewrite assoc_snoc, Hk'.
Qed.

Lemma line155_row k g : ∃ r, get_row (line155 k g) k = Some r.
Proof.
  unfold line155. destruct (get_row g k) as [r|] eqn:E; [eauto|].
  unfold get_row in *. simpl. rewrite assoc_snoc.
  destruct (assoc k (byEmployee g)); [done|].
  rewrite decide_True by done. eauto.
Qed.

Lemma line156_ok k d g : grouping_ok g → grouping_ok (line156 k d g) ∧ extends g (line156 k d g).
Proof.
  intros Hok. unfold line156. destruct (get_row g k) as [r|] eqn:E.
  2: { split; [done|reflexivity]. }
  pose proof (get_row_valid _ _ _ Hok E) as Hr.
  destruct Hok as [Hh Hrows].
  destruct (get_date (objects g) r d) as [a|] eqn:Ed.
  - split; [split|split]; simpl.
    + apply heap_ok_put; [done|]. by eapply get_date_valid.
    + intros k' r' Hk'. unfold put_date. rewrite length_alter. eauto.
    + apply grows_put. unfold get_date in Ed.
      destruct (own_date (objects g) r d); [right; congruence|by left].
    + auto.
  - assert (own_date (objects g) r d = None) as Hown.
    { unfold get_date in Ed. by destruct (own_date (objects g) r d). }
    split; [split|split]; simpl.
    + apply heap_ok_put; [by apply heap_ok_alloc|]. rewrite length_app. simpl. lia.
    + intros k' r' Hk'. unfold put_date. rewrite length_alter, length_app. simpl.
      apply Hrows in Hk'. lia.
    + etrans; [apply grows_alloc|]. apply grows_put. left.
      unfold own_date in *. rewrite lookup_app_l by done. done.
    + auto.
Qed.

Lemma line157_ok k s g : grouping_ok g → grouping_ok (line157 k s g) ∧ extends g (line157 k s g).
Proof.
  intros Hok. unfold line157. destruct (get_row g k) as [r|] eqn:E.
  2: { split; [done|reflexivity]. }
  destruct (get_date (objects g) r (date s)) as [a|] eqn:Ed.
  2: { split; [done|reflexivity]. }
  destruct Hok as [Hh Hrows]. split; [split|split]; simpl.
  - by apply heap_ok_push.
  - intros k' r' Hk'. unfold push. rewrite length_alter. eauto.
  - apply grows_push.
  - auto.
Qed.

Lemma line158_ok d g : grouping_ok g → grouping_ok (line158 d g) ∧ extends g (line158 d g).
Proof. intros Hok. split; [exact Hok|]. split; simpl; [reflexivity|auto]. Qed.

Lemma visit_ok g s : grouping_ok g → grouping_ok (visit g s) ∧ extends g (visit g s).
Proof.
  intros H0. unfold visit.
  destruct (line155_ok (empName s) g H0) as [H1 E1].
  destruct (line156_ok (empName s) (date s) _ H1) as [H2 E2].
  destruct (line157_ok (empName s) s _ H2) as [H3 E3].
  destruct (line158_ok (date s) _ H3) as [H4 E4].
  split; [done|]. by repeat (etrans; [eassumption|]).
Qed.

Lemma foldl_visit_ok shifts g :
  grouping_ok g → grouping_ok (foldl visit g shifts) ∧ extends g (foldl visit g shifts).
Proof.
  revert g. induction shifts as [|s shifts IH]; intros g Hok; simpl.
  - split; [done|reflexivity].
  - destruct (visit_ok g s Hok) as [H1 E1].
    destruct (IH _ H1) as [H2 E2]. split; [done|by etrans].
Qed.

Lemma group_start_ok h : heap_ok h → grouping_ok (Grouping [] [] h).
Proof. intros Hh. split; [done|]. simpl. done. Qed.

(** The store stays well-formed from call to call. *)
Lemma renderWeekTable_heap_ok h shifts : heap_ok h → heap_ok (renderWeekTable h shifts).1.
Proof.
  intros Hh. destruct shifts as [|s shifts]; [done|].
  unfold renderWeekTable. cbn [fst].
  by destruct (foldl_visit_ok (s :: shifts) _ (group_start_ok h Hh)) as [[? ?] _].
Qed.

Lemma new_realm_ok : heap_ok new_realm.
Proof.
  split; [simpl; lia|]. intros r o d a Hr.
  apply list_elem_of_lookup_2, elem_of_replicate_inv in Hr as ->. done.
Qed.

(** Every store the page can have is well-formed. *)
Lemma reachable_heap_ok h : reachable h → heap_ok h.
Proof.
  induction 1 as [|h shifts _ IH]; [apply new_realm_ok|by apply renderWeekTable_heap_ok].
Qed.

(** ** Where a shift ends up *)

Lemma own_date_grows h h' r d a :
  grows h h' → own_date h r d = Some a → own_date h' r d = Some a.
Proof.
  intros Hg. unfold own_date. destruct (h !! r) as [o|] eqn:E; simpl; [|done].
  destruct (Hg _ _ E) as (o' & -> & _ & Hp). simpl. auto.
Qed.

Lemma placed_extends g g' k s : extends g g' → placed g k s → placed g' k s.
Proof.
  intros [Hg Hk] (r & a & o & Hr & Ha & Ho & Hs).
  destruct (Hg _ _ Ho) as (o' & Ho' & He & _).
  exists r, a, o'. split_and!; [auto|by eapply own_date_grows|done|auto].
Qed.

Lemma own_date_put h r d a :
  (r < length h)%nat → own_date (put_date h r d a) r d = Some a.
Proof.
  intros Hr. unfold own_date, put_date. rewrite list_lookup_alter_eq.
  destruct (lookup_lt_is_Some_2 h r Hr) as [o ->]. simpl. apply assoc_set_eq.
Qed.

Lemma push_elem h a s :
  (a < length h)%nat → ∃ o, push h a s !! a = Some o ∧ s ∈ elems o.
Proof.
  intros Ha. unfold push. rewrite list_lookup_alter_eq.
  destruct (lookup_lt_is_Some_2 h a Ha) as [o ->]. simpl.
  eexists. split; [done|]. simpl. apply elem_of_app. right. left.
Qed.

Lemma get_date_own h r d a : own_date h r d = Some a → get_date h r d = Some a.
Proof. unfold get_date. by intros ->. Qed.

Lemma get_row_own g k r : assoc k (byEmployee g) = Some r → get_row g k = Some r.
Proof. unfold get_row. by intros ->. Qed.

Lemma line156_own k d g r :
  grouping_ok g → assoc k (byEmployee g) = Some r →
  ∃ a, own_date (objects (line156 k d g)) r d = Some a
       ∧ (a < length (objects (line156 k d g)))%nat
       ∧ byEmployee (line156 k d g) = byEmployee g.
Proof.
  intros Hok Hk. pose proof (get_row_own _ _ _ Hk) as Hrow.
  pose proof (get_row_valid _ _ _ Hok Hrow) as Hr.
  unfold line156. rewrite Hrow.
  destruct (get_date (objects g) r d) as [a|] eqn:Ed; simpl.
  - exists a. split_and!; [by apply own_date_put| |done].
    unfold put_date. rewrite length_alter. eapply get_date_valid; [apply Hok|done].
  - exists (length (objects g)). split_and!; [| |done].
    + apply own_date_put. rewrite length_app. simpl. lia.
    + unfold put_date. rewrite length_alter, length_app. simpl. lia.
Qed.

Lemma line157_places k s g r a :
  assoc k (byEmployee g) = Some r →
  own_date (objects g) r (date s) = Some a →
  (a < length (objects g))%nat →
  placed (line157 k s g) k s.
Proof.
  intros Hk Hown Ha. unfold line157.
  rewrite (get_row_own _ _ _ Hk), (get_date_own _ _ _ _ Hown).
  destruct (push_elem (objects g) a s Ha) as (o & Ho & Hs).
  exists r, a, o. simpl. split_and!; [done| |done..].
  eapply own_date_grows; [apply grows_push|done].
Qed.

Lemma visit_places g s :
  grouping_ok g → plain_key (empName s) → placed (visit g s) (empName s) s.
Proof.
  intros H0 Hplain. unfold visit.
  destruct (line155_ok (empName s) g H0) as [H1 _].
  destruct (line155_row (empName s) g) as [r Hr].
  unfold get_row in Hr. rewrite (plain_key_not_inherited _ _ Hplain) in Hr.
  assert (assoc (empName s) (byEmployee (line155 (empName s) g)) = Some r) as Hk
    by (by destruct (assoc _ _)).
  destruct (line156_own (empName s) (date s) _ r H1 Hk) as (a & Hown & Ha & Hby).
  rewrite <- Hby in Hk.
  pose proof (line157_places _ s _ r a Hk Hown Ha) as Hp.
  eapply placed_extends; [|exact Hp].
  apply line158_ok. apply line157_ok. by apply line156_ok.
Qed.

Lemma foldl_visit_places shifts g s :
  grouping_ok g → s ∈ shifts → plain_key (empName s) →
  placed (foldl visit g shifts) (empName s) s.
Proof.
  revert g. induction shifts as [|s0 shifts IH]; intros g Hok Hin Hplain.
  { by apply elem_of_nil in Hin. }
  simpl. destruct (visit_ok g s0 Hok) as [H1 _].
  apply elem_of_cons in Hin as [->|Hin].
  - eapply placed_extends; [apply foldl_visit_ok, H1|]. by apply visit_places.
  - by apply IH.
Qed.

(** ** [Object.entries] *)

Lemma entries_index_part (o : list (jsstring * ref)) :
  map snd (omap (λ p, n ← array_index p.1; Some (n, p)) o)
  = filter (λ p, ¬ array_index p.1 = None) o.
Proof.
  induction o as [|p o IH]; [done|]. rewrite filter_cons. cbn [omap list_omap].
  destruct (array_index p.1) as [n|] eqn:E.
  - rewrite decide_True by done. simpl. by rewrite IH.
  - rewrite decide_False by (intros H; by apply H). done.
Qed.

Lemma entries_perm (o : list (jsstring * ref)) : entries o ≡ₚ o.
Proof.
  unfold entries. rewrite merge_sort_Permutation, entries_index_part.
  rewrite (comm (++)). apply filter_app_complement.
Qed.

(** Without an array index among the keys, [Object.entries] follows the
    creation order. *)
Lemma entries_no_index (o : list (jsstring * ref)) :
  Forall (λ p, array_index p.1 = None) o → entries o = o.
Proof.
  intros Hall. unfold entries.
  assert (omap (λ p, n ← array_index p.1; Some (n, p)) o = []) as ->.
  { induction Hall as [|p o Hp _ IH]; [done|]. simpl. by rewrite Hp. }
  simpl. induction Hall as [|p o Hp _ IH]; [done|].
  rewrite filter_cons, decide_True by done. by rewrite IH.
Qed.

Lemma placed_shown g k s :
  placed g k s → date s ∈ datesSet g → shown_in (view_of g) k s.
Proof.
  intros (r & a & o & Hk & Hown & Ho & Hs) Hd.
  assert (date s ∈ sorted_dates g) as [i Hi]%list_elem_of_lookup_1.
  { unfold sorted_dates. by rewrite merge_sort_Permutation. }
  exists i, (map (bucket (objects g) r) (sorted_dates g)), (elems o).
  unfold view_of; simpl. split_and!; [| done | | done].
  - apply (list_elem_of_fmap_2' _ _ (k, r)); [|done].
    rewrite entries_perm. by apply assoc_Some_elem.
  - rewrite list_lookup_fmap, Hi. simpl. f_equal.
    unfold bucket. by rewrite (get_date_own _ _ _ _ Hown), Ho.
Qed.

(** A shift whose key [Object.prototype] cannot answer for is shown in the
    row of that key. *)
Lemma plain_key_shown h shifts s :
  heap_ok h → s ∈ shifts → plain_key (empName s) →
  shown_in (week_view h shifts) (empName s) s.
Proof.
  intros Hh Hin Hplain. unfold week_view, group.
  apply placed_shown.
  - apply foldl_visit_places; [by apply group_start_ok|done..].
  - apply (group_datesSet h shifts). eauto.
Qed.

Lemma open_shift_key_plain : plain_key open_shift_key.
Proof.
  split; [by vm_compute; intros [? ?]|].
  intros d Hd. apply (f_equal length) in Hd. by vm_compute in Hd.
Qed.

(** ** Row names *)

Lemma visit_byEmployee g s :
  byEmployee (visit g s) = byEmployee (line155 (empName s) g).
Proof.
  unfold visit, line158, line157, line156. simpl.
  repeat (case_match; simpl); done.
Qed.

Lemma foldl_visit_names shifts g :
  NoDup (map fst (byEmployee g)) → NoDup (map fst (byEmployee (foldl visit g shifts))).
Proof.
  revert g. induction shifts as [|s shifts IH]; intros g Hnd; [done|].
  simpl. apply IH. rewrite visit_byEmployee. unfold line155.
  destruct (get_row g (empName s)) as [r|] eqn:E; [done|]. simpl.
  rewrite map_app. simpl. apply NoDup_app. split_and!; [done| |apply NoDup_singleton].
  intros k Hk ->%list_elem_of_singleton. revert Hk. apply assoc_None_fst.
  unfold get_row in E. by destruct (assoc _ _).
Qed.

Lemma row_names_view_of g : row_names (view_of g) ≡ₚ map fst (byEmployee g).
Proof.
  unfold row_names, view_of. simpl. rewrite <- (entries_perm (byEmployee g)) at 2.
  rewrite <- list_fmap_compose. done.
Qed.

Lemma row_names_nodup h shifts : NoDup (row_names (week_view h shifts)).
Proof.
  unfold week_view. rewrite row_names_view_of.
  apply foldl_visit_names. simpl. apply NoDup_nil_2.
Qed.

Lemma filter_absent (k : jsstring) (l : list jsstring) :
  k ∉ l → filter (λ x, x = k) l = [].
Proof.
  induction l as [|x l IH]; [done|]. intros [Hx Hl]%not_elem_of_cons.
  rewrite filter_cons, decide_False by done. auto.
Qed.

Lemma NoDup_at_most_once (k : jsstring) (l : list jsstring) :
  NoDup l → (length (filter (λ x, x = k) l) ≤ 1)%nat.
Proof.
  induction 1 as [|x l Hx Hl IH]; [simpl; lia|].
  rewrite filter_cons. case_decide as Hk; [|lia]. subst x. simpl.
  rewrite filter_absent by done. simpl. lia.
Qed.

(** ** Open shifts *)

(** C5: every shift whose [employee] is null or absent is shown in the row
    named by the open-shift text, and no name heads two rows, so there is at
    most one such row however many open shifts there are. *)
Theorem C5_open_shifts_share_one_row (h : heap) (shifts : list shift) :
  heap_ok h →
  (∀ s, s ∈ shifts → employee s = VNull ∨ employee s = VUndefined →
        shown_in (week_view h shifts) open_shift_key s)
  ∧ NoDup (row_names (week_view h shifts))
  ∧ (length (filter (λ k, k = open_shift_key) (row_names (week_view h shifts))) ≤ 1)%nat.
Proof.
  intros Hh. split_and!.
  - intros s Hin He.
    assert (empName s = open_shift_key) as Hk.
    { unfold empName. by destruct He as [-> | ->]. }
    rewrite <- Hk. apply plain_key_shown; [done..|].
    rewrite Hk. apply open_shift_key_plain.
  - apply row_names_nodup.
  - apply NoDup_at_most_once, row_names_nodup.
Qed.

Lemma C5_open_shifts_witness :
  heap_ok new_realm
  ∧ (length (filter (λ k, k = open_shift_key)
       (row_names (week_view new_realm
          [sample_shift (ymd 2024 1 1) VNull; sample_shift (ymd 2024 1 2) (named "Ada");
           sample_shift (ymd 2024 1 3) VUndefined; sample_shift (ymd 2024 1 1) VNull])))
     ≤ 1)%nat.
Proof.
  split; [exact new_realm_ok|].
  exact (proj2 (proj2 (C5_open_shifts_share_one_row new_realm
    [sample_shift (ymd 2024 1 1) VNull; sample_shift (ymd 2024 1 2) (named "Ada");
     sample_shift (ymd 2024 1 3) VUndefined; sample_shift (ymd 2024 1 1) VNull]
    new_realm_ok))).
Defined.

Lemma truthy_false_iff (v : value) :
  truthy v = false ↔ v ∈ [VUndefined; VNull; VBool false; VNumber 0; VString []].
Proof.
  rewrite !elem_of_cons, elem_of_nil. split.
  - destruct v as [| |[]|n|[|c x]|o]; simpl; try done; auto 10.
    intros Hn. do 3 right. left. f_equal.
    apply Z.eqb_eq. by destruct (n =? 0)%Z.
  - by intros [->|[->|[->|[->|[->|[]]]]]].
Qed.

(** C10: the test of line 154 is truthiness.  The falsy values of
    [employee] are exactly null, undefined, false, 0 and the empty string;
    a shift with one of them gets the open-shift key and is shown in that
    row; a shift with a truthy value gets the key read from its [full_name]
    property. *)
Theorem C10_open_shift_is_decided_by_truthiness
    (h : heap) (shifts : list shift) (s : shift) :
  heap_ok h →
  s ∈ shifts →
  (truthy (employee s) = false
   ↔ employee s ∈ [VUndefined; VNull; VBool false; VNumber 0; VString []])
  ∧ (truthy (employee s) = false →
     empName s = open_shift_key ∧ shown_in (week_view h shifts) open_shift_key s)
  ∧ (truthy (employee s) = true →
     empName s = property_key (full_name_of (employee s)))
  ∧ (∀ name, employee s = VEmployee (Some name) → empName s = name).
Proof.
  intros Hh Hin. split_and!.
  - apply truthy_false_iff.
  - intros Hf.
    assert (empName s = open_shift_key) as Hk by (unfold empName; by rewrite Hf).
    split; [done|]. rewrite <- Hk. apply plain_key_shown; [done..|].
    rewrite Hk. apply open_shift_key_plain.
  - intros Ht. unfold empName. by rewrite Ht.
  - intros name He. unfold empName. by rewrite He.
Qed.

Lemma C10_open_shift_witness :
  heap_ok new_realm
  ∧ sample_shift (ymd 2024 1 1) (VNumber 0)
    ∈ [sample_shift (ymd 2024 1 1) (named "Ada"); sample_shift (ymd 2024 1 1) (VNumber 0)]
  ∧ shown_in
      (week_view new_realm
         [sample_shift (ymd 2024 1 1) (named "Ada"); sample_shift (ymd 2024 1 1) (VNumber 0)])
      open_shift_key (sample_shift (ymd 2024 1 1) (VNumber 0)).
Proof.
  assert (Hin : sample_shift (ymd 2024 1 1) (VNumber 0)
                ∈ [sample_shift (ymd 2024 1 1) (named "Ada");
                   sample_shift (ymd 2024 1 1) (VNumber 0)])
    by (right; left).
  split_and!; [exact new_realm_ok|exact Hin|].
  exact (proj2 (proj1 (proj2 (C10_open_shift_is_decided_by_truthiness new_realm _ _
                                new_realm_ok Hin)) eq_refl)).
Defined.

(** * The loop builds the table of the specification *)

(** ** Reading the store through [props_at] and [elems_at] *)

Lemma own_date_props_at h r d : own_date h r d = assoc d (props_at h r).
Proof. unfold own_date, props_at. by destruct (h !! r). Qed.

Lemma props_at_push h a s r : props_at (push h a s) r = props_at h r.
Proof.
  unfold props_at, push. destruct (decide (a = r)) as [->|Hne].
  - rewrite list_lookup_alter_eq. by destruct (h !! r).
  - by rewrite list_lookup_alter_ne.
Qed.

Lemma elems_at_push_eq h a s :
  (a < length h)%nat → elems_at (push h a s) a = elems_at h a ++ [s].
Proof.
  intros Ha. unfold elems_at, push. rewrite list_lookup_alter_eq.
  by destruct (lookup_lt_is_Some_2 h a Ha) as [o ->].
Qed.

Lemma elems_at_push_ne h a s x : x ≠ a → elems_at (push h a s) x = elems_at h x.
Proof. intros Hne. unfold elems_at, push. by rewrite list_lookup_alter_ne. Qed.

Lemma props_at_put_eq h r d a :
  (r < length h)%nat → props_at (put_date h r d a) r = assoc_set d a (props_at h r).
Proof.
  intros Hr. unfold props_at, put_date. rewrite list_lookup_alter_eq.
  by destruct (lookup_lt_is_Some_2 h r Hr) as [o ->].
Qed.

Lemma props_at_put_ne h r d a x : x ≠ r → props_at (put_date h r d a) x = props_at h x.
Proof. intros Hne. unfold props_at, put_date. by rewrite list_lookup_alter_ne. Qed.

Lemma elems_at_put h r d a x : elems_at (put_date h r d a) x = elems_at h x.
Proof.
  unfold elems_at, put_date. destruct (decide (r = x)) as [->|Hne].
  - rewrite list_lookup_alter_eq. by destruct (h !! x).
  - by rewrite list_lookup_alter_ne.
Qed.

Lemma props_at_alloc h o x : (x < length h)%nat → props_at (h ++ [o]) x = props_at h x.
Proof. intros Hx. unfold props_at. by rewrite lookup_app_l. Qed.

Lemma elems_at_alloc h o x : (x < length h)%nat → elems_at (h ++ [o]) x = elems_at h x.
Proof. intros Hx. unfold elems_at. by rewrite lookup_app_l. Qed.

Lemma props_at_new h o : props_at (h ++ [o]) (length h) = props o.
Proof. unfold props_at. by rewrite list_lookup_middle. Qed.

Lemma elems_at_new h o : elems_at (h ++ [o]) (length h) = elems o.
Proof. unfold elems_at. by rewrite list_lookup_middle. Qed.

Lemma inherited_unpolluted h k :
  unpolluted h → ¬ inherited_name k → inherited h k = None.
Proof.
  unfold unpolluted, props_at, inherited, inherited_name.
  intros Hh Hk%eq_None_not_Some. rewrite Hk.
  destruct (h !! object_prototype) as [o|]; simpl; [|done]. by rewrite Hh.
Qed.

Lemma get_date_unpolluted h r d : unpolluted h → get_date h r d = own_date h r d.
Proof.
  intros Hh. unfold get_date. destruct (own_date h r d) as [a|] eqn:E; [done|].
  by rewrite own_date_props_at, Hh.
Qed.

(** ** Association lists under [map] *)

Section assoc_map.
Context {K V W : Type} `{EqDecision K}.
Implicit Types (k : K) (l : list (K * V)).

Lemma assoc_fmap (F : V → W) k l :
  assoc k (map (λ p, (p.1, F p.2)) l) = F <$> assoc k l.
Proof.
  induction l as [|[k0 v0] l IH]; simpl; [done|]. by case_decide.
Qed.

Lemma assoc_set_absent k (v : V) l : assoc k l = None → assoc_set k v l = l ++ [(k, v)].
Proof.
  induction l as [|[k0 v0] l IH]; simpl; [done|].
  case_decide; [done|]. intros ?. f_equal. auto.
Qed.

Lemma assoc_set_same k (v : V) l : assoc k l = Some v → assoc_set k v l = l.
Proof.
  induction l as [|[k0 v0] l IH]; simpl; [done|].
  case_decide; [by intros [= ->]|]. intros ?. f_equal. auto.
Qed.

Lemma assoc_set_snoc k (v v' : V) l :
  assoc k l = None → assoc_set k v (l ++ [(k, v')]) = l ++ [(k, v)].
Proof.
  induction l as [|[k0 v0] l IH]; simpl.
  - by rewrite decide_True.
  - case_decide; [done|]. intros ?. f_equal. auto.
Qed.

Lemma fmap_assoc_set (F F' : V → W) k v l :
  assoc k l = Some v →
  NoDup (map snd l) →
  (∀ p, p ∈ l → p.2 ≠ v → F' p.2 = F p.2) →
  map (λ p, (p.1, F' p.2)) l = assoc_set k (F' v) (map (λ p, (p.1, F p.2)) l).
Proof.
  induction l as [|[k0 v0] l IH]; simpl; [done|].
  intros Hk [Hv0 Hnd]%NoDup_cons Hsame. destruct (decide (k0 = k)) as [->|Hne].
  - injection Hk as ->. f_equal. apply map_ext_in. intros [k1 v1] Hin%list_elem_of_In.
    simpl. f_equal. apply (Hsame (k1, v1)); [by right|]. simpl. intros ->.
    apply Hv0. by apply (list_elem_of_fmap_2 snd _ (k1, v)).
  - f_equal.
    + f_equal. apply (Hsame (k0, v0)); [left|]. simpl. intros ->.
      apply Hv0. apply (list_elem_of_fmap_2 snd _ (k, v)). by apply assoc_Some_elem.
    + apply IH; [done..|]. intros p Hp. apply Hsame. by right.
Qed.

End assoc_map.

Lemma elem_of_concat {A} (x : A) (ls : list (list A)) :
  x ∈ concat ls ↔ ∃ l, l ∈ ls ∧ x ∈ l.
Proof.
  induction ls as [|l0 ls IH]; simpl.
  - split; [by intros ?%elem_of_nil|by intros (l & ?%elem_of_nil & _)].
  - rewrite elem_of_app, IH. split.
    + intros [Hx|(l & Hl & Hx)]; [exists l0; split; [left|done]|exists l; split; [by right|done]].
    + intros (l & [->|Hl]%elem_of_cons & Hx); [by left|right; eauto].
Qed.

Lemma NoDup_concat_part {A B} (G : A → list B) (l : list A) (p : A) :
  NoDup (concat (map G l)) → p ∈ l → NoDup (G p).
Proof.
  induction l as [|p0 l IH]; simpl; [by intros _ ?%elem_of_nil|].
  intros [Hp0 [_ Hl]]%NoDup_app [->|Hin]%elem_of_cons; auto.
Qed.

Lemma NoDup_concat_owner {A B} (G : A → list B) (l : list A) (f : A → nat) (p p' : A) (x : B) :
  NoDup (map f l) →
  NoDup (concat (map G l)) → p ∈ l → p' ∈ l → x ∈ G p → x ∈ G p' → f p = f p'.
Proof.
  induction l as [|p0 l IH]; simpl; [by intros _ _ ?%elem_of_nil|].
  intros [Hf Hnd]%NoDup_cons [Hp0 [Hdis Hl]]%NoDup_app
    [->|Hin]%elem_of_cons [->|Hin']%elem_of_cons Hx Hx'; auto.
  - destruct (Hdis x Hx). apply elem_of_concat. exists (G p'). split; [|done].
    by apply list_elem_of_fmap_2.
  - destruct (Hdis x Hx'). apply elem_of_concat. exists (G p). split; [|done].
    by apply list_elem_of_fmap_2.
Qed.

Lemma concat_one_more {A B} (G G' : A → list B) (f : A → nat) (l : list A) (p : A) (e : B) :
  NoDup (map f l) → p ∈ l →
  (∀ q, q ∈ l → f q ≠ f p → G' q = G q) →
  G' p ≡ₚ e :: G p →
  concat (map G' l) ≡ₚ e :: concat (map G l).
Proof.
  induction l as [|p0 l IH]; simpl; [by intros _ ?%elem_of_nil|].
  intros [Hf Hnd]%NoDup_cons Hin Hsame Hp.
  destruct (decide (f p0 = f p)) as [Heq|Hne].
  - assert (map G' l = map G l) as ->.
    { apply map_ext_in. intros q Hq%list_elem_of_In. apply Hsame; [by right|].
      intros Hq'. apply Hf. rewrite Heq, <- Hq'. by apply list_elem_of_fmap_2. }
    apply elem_of_cons in Hin as [->|Hin].
    + rewrite Hp. reflexivity.
    + destruct Hf. rewrite Heq. by apply list_elem_of_fmap_2.
  - apply elem_of_cons in Hin as [->|Hin]; [done|].
    rewrite (Hsame p0) by (by (left) || done).
    assert (concat (map G' l) ≡ₚ e :: concat (map G l)) as ->.
    { apply IH; [done..| |done]. intros q Hq. apply Hsame. by right. }
    by rewrite Permutation_middle.
Qed.

Lemma tidy_row_bound g k r :
  tidy g → assoc k (byEmployee g) = Some r → (12 ≤ r < length (objects g))%nat.
Proof.
  intros (_ & _ & _ & Hb) Hk. rewrite Forall_app in Hb. destruct Hb as [Hb _].
  rewrite Forall_forall in Hb. apply Hb.
  apply (list_elem_of_fmap_2 snd _ (k, r)). by apply assoc_Some_elem.
Qed.

Lemma tidy_array_bound g p a :
  tidy g → p ∈ byEmployee g → a ∈ map snd (props_at (objects g) p.2) →
  (12 ≤ a < length (objects g))%nat.
Proof.
  intros (_ & _ & _ & Hb) Hp Ha. rewrite Forall_app in Hb. destruct Hb as [_ Hb].
  rewrite Forall_forall in Hb. apply Hb. apply elem_of_concat.
  eexists. split; [|exact Ha].
  by apply (list_elem_of_fmap_2 (λ p, map snd (props_at (objects g) p.2))).
Qed.

Lemma get_row_tidy g k :
  tidy g → ¬ inherited_name k → get_row g k = assoc k (byEmployee g).
Proof.
  intros (_ & Hu & _) Hk. unfold get_row.
  destruct (assoc k (byEmployee g)); [done|]. by apply inherited_unpolluted.
Qed.

Lemma array_refs_ext l ds ds' h h' :
  (∀ x, props_at h' x = props_at h x) →
  array_refs (Grouping l ds h') = array_refs (Grouping l ds' h).
Proof.
  intros Hp. unfold array_refs. cbn [objects byEmployee]. f_equal.
  apply map_ext. intros p. by rewrite Hp.
Qed.

(** Lines 156 and 157 for a row that exists, computed. *)
Lemma fill_old_bucket g k s r a :
  assoc k (byEmployee g) = Some r →
  (r < length (objects g))%nat →
  get_date (objects g) r (date s) = Some a →
  line157 k s (line156 k (date s) g)
  = Grouping (byEmployee g) (datesSet g)
             (push (put_date (objects g) r (date s) a) a s).
Proof.
  intros Hk Hr Ha. unfold line156. rewrite (get_row_own _ _ _ Hk), Ha.
  unfold line157, get_row. cbn [byEmployee objects datesSet]. rewrite Hk.
  by rewrite (get_date_own _ _ _ _ (own_date_put _ _ _ _ Hr)).
Qed.

Lemma fill_new_bucket g k s r :
  assoc k (byEmployee g) = Some r →
  (r < length (objects g))%nat →
  get_date (objects g) r (date s) = None →
  line157 k s (line156 k (date s) g)
  = Grouping (byEmployee g) (datesSet g)
             (push (put_date (objects g ++ [Object [] []]) r (date s) (length (objects g)))
                   (length (objects g)) s).
Proof.
  intros Hk Hr Ha. unfold line156. rewrite (get_row_own _ _ _ Hk), Ha.
  unfold line157, get_row. cbn [byEmployee objects datesSet]. rewrite Hk.
  rewrite (get_date_own _ _ _ (length (objects g))); [done|].
  apply own_date_put. rewrite length_app. simpl. lia.
Qed.

(** Filling the bucket of a row that exists (lines 156 and 157). *)
Lemma fill_refines g k s r :
  tidy g → ¬ inherited_name k → assoc k (byEmployee g) = Some r →
  let g' := line157 k s (line156 k (date s) g) in
  tidy g'
  ∧ byEmployee g' = byEmployee g
  ∧ table_of g'
    = assoc_set k
        (assoc_set (date s)
           (default [] (assoc (date s) (row_of (objects g) r)) ++ [s])
           (row_of (objects g) r))
        (table_of g).
Proof.
  intros Ht Hname Hk. pose proof Ht as (Hok & Hu & Hnd & Hb).
  pose proof (tidy_row_bound _ _ _ Ht Hk) as Hr.
  assert (NoDup (row_refs g)) as Hrows by (by apply NoDup_app in Hnd as [? _]).
  assert (NoDup (array_refs g)) as Harrs by (by apply NoDup_app in Hnd as (_ & _ & ?)).
  assert (Hkr : (k, r) ∈ byEmployee g) by (by apply assoc_Some_elem).
  set (h := objects g) in *. set (d := date s) in *.
  destruct (line157_ok k s _ (proj1 (line156_ok k d g Hok))) as [Hok' _].
  cbv zeta. revert Hok'.
  pose proof (get_date_unpolluted h r d Hu) as Hget.
  rewrite own_date_props_at in Hget.
  destruct (assoc d (props_at h r)) as [a|] eqn:Ed.
  - (* the bucket exists *)
    assert (Ha : a ∈ map snd (props_at h r)).
    { apply (list_elem_of_fmap_2 snd _ (d, a)). by apply assoc_Some_elem. }
    pose proof (tidy_array_bound g (k, r) a Ht Hkr Ha) as Hab. fold h in Hab.
    assert (Hp1 : ∀ x, props_at (put_date h r d a) x = props_at h x).
    { intros x. destruct (decide (x = r)) as [->|Hne].
      - rewrite props_at_put_eq by lia. by apply assoc_set_same.
      - by apply props_at_put_ne. }
    pose proof (fill_old_bucket g k s r a Hk (proj2 Hr) Hget) as Hfill.
    fold h d in Hfill. rewrite Hfill. clear Hfill. intros Hok'.
    set (h' := push (put_date h r d a) a s) in *.
    assert (Hp : ∀ x, props_at h' x = props_at h x).
    { intros x. unfold h'. by rewrite props_at_push. }
    assert (He : elems_at h' a = elems_at h a ++ [s]).
    { unfold h'. rewrite elems_at_push_eq, elems_at_put; [done|].
      unfold put_date. rewrite length_alter. lia. }
    assert (He' : ∀ x, x ≠ a → elems_at h' x = elems_at h x).
    { intros x Hx. unfold h'. by rewrite elems_at_push_ne, elems_at_put. }
    assert (Hlen : length h' = length h).
    { unfold h', push, put_date. by rewrite !length_alter. }
    split_and!.
    + unfold tidy. split_and!; cbn [objects byEmployee].
      * exact Hok'.
      * unfold unpolluted. rewrite Hp. apply Hu.
      * rewrite (array_refs_ext _ _ (datesSet g) h h' Hp). by destruct g.
      * rewrite (array_refs_ext _ _ (datesSet g) h h' Hp), Hlen. by destruct g.
    + done.
    + unfold table_of. cbn [objects byEmployee]. fold h.
      rewrite (fmap_assoc_set (row_of h) (row_of h') k r); [|done..|].
      * f_equal. unfold row_of at 1. rewrite Hp.
        rewrite (fmap_assoc_set (elems_at h) (elems_at h') d a); [|done| |].
        -- rewrite He. unfold row_of. rewrite assoc_fmap, Ed. done.
        -- eapply (NoDup_concat_part (λ p, map snd (props_at h p.2)) _ (k, r)); done.
        -- intros q _ Hq. by apply He'.
      * intros p Hp' Hpr. unfold row_of. rewrite Hp. apply map_ext_in.
        intros q Hq%list_elem_of_In. f_equal. apply He'. intros Hqa.
        apply Hpr.
        apply (NoDup_concat_owner (λ p, map snd (props_at h p.2)) (byEmployee g) snd
                 p (k, r) a Hrows Harrs Hp' Hkr).
        -- rewrite <- Hqa. by apply list_elem_of_fmap_2.
        -- done.
  - (* a new bucket *)
    set (n := length h).
    assert (Hn : (12 ≤ n)%nat) by apply Hok.
    set (h1 := put_date (h ++ [Object [] []]) r d n).
    assert (Hp1r : props_at h1 r = props_at h r ++ [(d, n)]).
    { unfold h1. rewrite props_at_put_eq by (rewrite length_app; simpl; lia).
      rewrite props_at_alloc by lia. by apply assoc_set_absent. }
    pose proof (fill_new_bucket g k s r Hk (proj2 Hr) Hget) as Hfill.
    fold h d n h1 in Hfill. rewrite Hfill. clear Hfill. intros Hok'.
    set (h' := push h1 n s) in *.
    assert (Hlen : length h' = S n).
    { unfold h', h1, push, put_date. rewrite !length_alter, length_app. simpl. lia. }
    assert (Hpr : props_at h' r = props_at h r ++ [(d, n)]).
    { unfold h'. by rewrite props_at_push. }
    assert (Hp : ∀ x, x ≠ r → (x < n)%nat → props_at h' x = props_at h x).
    { intros x Hx Hxn. unfold h', h1.
      by rewrite props_at_push, props_at_put_ne, props_at_alloc. }
    assert (He : ∀ x, (x < n)%nat → elems_at h' x = elems_at h x).
    { intros x Hxn. unfold h', h1.
      rewrite elems_at_push_ne by lia. by rewrite elems_at_put, elems_at_alloc. }
    assert (Hen : elems_at h' n = [s]).
    { unfold h', h1. rewrite elems_at_push_eq.
      - by rewrite elems_at_put, elems_at_new.
      - unfold put_date. rewrite length_alter, length_app. simpl. lia. }
    assert (Hrow_lt : ∀ p, p ∈ byEmployee g → (p.2 < n)%nat).
    { intros p Hp'. rewrite Forall_app, !Forall_forall in Hb. destruct Hb as [Hb _].
      apply Hb. by apply list_elem_of_fmap_2. }
    assert (Harr_lt : ∀ p q, p ∈ byEmployee g → q ∈ props_at h p.2 → (q.2 < n)%nat).
    { intros p q Hp' Hq. apply (tidy_array_bound g p q.2 Ht Hp').
      by apply list_elem_of_fmap_2. }
    assert (Hperm : array_refs (Grouping (byEmployee g) (datesSet g) h') ≡ₚ n :: array_refs g).
    { unfold array_refs. cbn [objects byEmployee]. fold h.
      apply (concat_one_more _ _ snd _ (k, r)); [done..| |].
      - intros q Hq Hqr. simpl in Hqr. rewrite Hp; [done..|]. by apply Hrow_lt.
      - simpl. rewrite Hpr, map_app. simpl. by rewrite (comm (++)). }
    split_and!.
    + unfold tidy. split_and!; cbn [objects byEmployee].
      * exact Hok'.
      * unfold unpolluted. rewrite Hp by (unfold object_prototype; lia). apply Hu.
      * unfold row_refs at 1. cbn [byEmployee]. fold (row_refs g).
        rewrite Hperm, <- Permutation_middle. apply NoDup_cons. split; [|done].
        intros Hin. rewrite Forall_forall in Hb. apply Hb in Hin. unfold n, h in *. lia.
      * unfold row_refs at 1. cbn [byEmployee]. fold (row_refs g).
        rewrite Hperm, <- Permutation_middle, Hlen. apply Forall_cons. split; [lia|].
        eapply Forall_impl; [exact Hb|]. simpl. fold h n. lia.
    + done.
    + unfold table_of. cbn [objects byEmployee]. fold h.
      rewrite (fmap_assoc_set (row_of h) (row_of h') k r); [|done..|].
      * f_equal. unfold row_of. rewrite Hpr, map_app, assoc_fmap, Ed. simpl.
        rewrite Hen.
        rewrite assoc_set_absent by (by rewrite assoc_fmap, Ed).
        f_equal. apply map_ext_in. intros q Hq%list_elem_of_In. f_equal.
        apply He. by apply (Harr_lt (k, r)).
      * intros p Hp' Hpr'. unfold row_of. rewrite Hp by (done || by apply Hrow_lt).
        apply map_ext_in. intros q Hq%list_elem_of_In. f_equal.
        apply He. by apply (Harr_lt p).
Qed.

(** Line 155 when the name has no row yet. *)
Lemma new_row_refines g k :
  tidy g → ¬ inherited_name k → assoc k (byEmployee g) = None →
  tidy (line155 k g)
  ∧ assoc k (byEmployee (line155 k g)) = Some (length (objects g))
  ∧ row_of (objects (line155 k g)) (length (objects g)) = []
  ∧ table_of (line155 k g) = table_of g ++ [(k, [])].
Proof.
  intros Ht Hname Hk. pose proof Ht as (Hok & Hu & Hnd & Hb).
  destruct (line155_ok k g Hok) as [Hok' _]. revert Hok'.
  unfold line155. rewrite (get_row_tidy _ _ Ht Hname), Hk. intros Hok'.
  set (h := objects g) in *. set (n := length h).
  assert (Hn : (12 ≤ n)%nat) by apply Hok.
  assert (Hrow_lt : ∀ p, p ∈ byEmployee g → (p.2 < n)%nat).
  { intros p Hp'. rewrite Forall_app, !Forall_forall in Hb. destruct Hb as [Hb _].
    apply Hb. by apply list_elem_of_fmap_2. }
  assert (Hrows : ∀ p, p ∈ byEmployee g →
            row_of (h ++ [Object [] []]) p.2 = row_of h p.2).
  { intros p Hp. unfold row_of. rewrite props_at_alloc by (by apply Hrow_lt).
    apply map_ext_in. intros q Hq%list_elem_of_In. f_equal.
    apply elems_at_alloc. apply (tidy_array_bound g p q.2 Ht Hp).
    by apply list_elem_of_fmap_2. }
  assert (Harr : array_refs (Grouping (byEmployee g ++ [(k, n)]) (datesSet g)
                                      (h ++ [Object [] []])) = array_refs g).
  { unfold array_refs. cbn [objects byEmployee]. fold h.
    rewrite map_app, concat_app. simpl. rewrite props_at_new. simpl.
    rewrite app_nil_r. f_equal. apply map_ext_in. intros p Hp%list_elem_of_In.
    rewrite props_at_alloc; [done|]. by apply Hrow_lt. }
  split_and!.
  - unfold tidy. split_and!; cbn [objects byEmployee].
    + exact Hok'.
    + unfold unpolluted. rewrite props_at_alloc by (unfold object_prototype; lia). apply Hu.
    + rewrite Harr. unfold row_refs at 1. cbn [byEmployee]. rewrite map_app. simpl.
      fold (row_refs g). rewrite <- app_assoc. simpl.
      rewrite <- Permutation_middle. apply NoDup_cons. split; [|done].
      intros Hin. rewrite Forall_forall in Hb. apply Hb in Hin. unfold n, h in *. lia.
    + rewrite Harr. unfold row_refs at 1. cbn [byEmployee]. rewrite map_app. simpl.
      fold (row_refs g). rewrite <- app_assoc. simpl.
      rewrite Forall_app, Forall_cons. rewrite Forall_app in Hb. destruct Hb as [Hb1 Hb2].
      assert (length (h ++ [Object [] []]) = S n) as -> by (rewrite length_app; simpl; lia).
      split; [|split; [lia|]]; (eapply Forall_impl; [eassumption|]); simpl; fold h n; lia.
  - cbn [byEmployee]. rewrite assoc_snoc, Hk. by rewrite decide_True.
  - cbn [objects]. unfold row_of. fold h n. by rewrite props_at_new.
  - unfold table_of. cbn [objects byEmployee]. fold h. rewrite map_app. simpl.
    f_equal.
    + apply map_ext_in. intros p Hp%list_elem_of_In. f_equal. by apply Hrows.
    + unfold row_of. fold n. by rewrite props_at_new.
Qed.

Lemma tidy_line158 d g : tidy g → tidy (line158 d g).
Proof. done. Qed.

Lemma table_of_line158 d g : table_of (line158 d g) = table_of g.
Proof. done. Qed.

(** One step of the loop is one insertion into the table. *)
Lemma visit_refines g s :
  tidy g → ¬ inherited_name (empName s) →
  tidy (visit g s) ∧ table_of (visit g s) = spec_insert (table_of g) s.
Proof.
  intros Ht Hname. unfold visit.
  destruct (assoc (empName s) (byEmployee g)) as [r|] eqn:Hk.
  - assert (line155 (empName s) g = g) as ->.
    { unfold line155. by rewrite (get_row_tidy _ _ Ht Hname), Hk. }
    destruct (fill_refines g (empName s) s r Ht Hname Hk) as (Ht' & _ & Htab).
    split; [by apply tidy_line158|].
    rewrite table_of_line158, Htab. unfold spec_insert, table_of.
    by rewrite assoc_fmap, Hk.
  - destruct (new_row_refines g (empName s) Ht Hname Hk) as (Ht1 & Hk1 & Hrow & Htab1).
    destruct (fill_refines _ (empName s) s _ Ht1 Hname Hk1) as (Ht' & _ & Htab).
    split; [by apply tidy_line158|].
    rewrite table_of_line158, Htab, Hrow, Htab1. simpl.
    assert (assoc (empName s) (table_of g) = None) as Hnone.
    { unfold table_of. by rewrite assoc_fmap, Hk. }
    unfold spec_insert. rewrite Hnone. simpl.
    by rewrite assoc_set_snoc, assoc_set_absent.
Qed.

Lemma tidy_start h : heap_ok h → unpolluted h → tidy (Grouping [] [] h).
Proof.
  intros Hh Hu. unfold tidy. split_and!; [by apply group_start_ok|done|..].
  - apply NoDup_nil_2.
  - apply Forall_nil_2.
Qed.

Lemma foldl_visit_refines shifts g :
  tidy g → Forall (λ s, ¬ inherited_name (empName s)) shifts →
  tidy (foldl visit g shifts)
  ∧ table_of (foldl visit g shifts) = foldl spec_insert (table_of g) shifts.
Proof.
  revert g. induction shifts as [|s shifts IH]; intros g Ht Hall; [done|].
  apply Forall_cons in Hall as [Hs Hall]. simpl.
  destruct (visit_refines g s Ht Hs) as [Ht' <-]. by apply IH.
Qed.

(** On a page whose [Object.prototype] is untouched, and for names that are
    not inherited, the objects built by the loop hold the table of the
    specification. *)
Lemma group_refines h shifts :
  heap_ok h → unpolluted h → Forall (λ s, ¬ inherited_name (empName s)) shifts →
  tidy (group h shifts) ∧ table_of (group h shifts) = aggregate shifts.
Proof.
  intros Hh Hu Hall. unfold group, aggregate.
  by apply (foldl_visit_refines shifts (Grouping [] [] h)); [apply tidy_start|].
Qed.

(** ** The table of the specification *)

Section assoc_more.
Context {K V : Type} `{EqDecision K}.
Implicit Types (k : K) (v : V) (l : list (K * V)).

Lemma assoc_set_keys k v l :
  map fst (assoc_set k v l)
  = if decide (k ∈ map fst l) then map fst l else map fst l ++ [k].
Proof.
  induction l as [|[k0 v0] l IH]; simpl; [done|].
  destruct (decide (k0 = k)) as [->|Hne]; simpl.
  - rewrite decide_True by left. done.
  - rewrite IH. destruct (decide (k ∈ map fst l)) as [Hin|Hout].
    + rewrite decide_True by (by right). done.
    + rewrite decide_False; [done|]. by intros [?|?]%elem_of_cons.
Qed.

Lemma assoc_None_keys k l : assoc k l = None ↔ k ∉ map fst l.
Proof.
  split; [apply assoc_None_fst|].
  induction l as [|[k0 v0] l IH]; simpl; [done|].
  intros [Hne Hout]%not_elem_of_cons. rewrite decide_False by done. auto.
Qed.

Lemma Forall_assoc_set (P : K * V → Prop) k v l :
  Forall P l → P (k, v) → Forall P (assoc_set k v l).
Proof.
  intros Hl Hv. induction Hl as [|[k0 v0] l H0 Hl IH]; simpl.
  - by apply Forall_singleton.
  - destruct (decide (k0 = k)) as [->|Hne]; by apply Forall_cons.
Qed.

Lemma assoc_Forall (P : K * V → Prop) k v l :
  Forall P l → assoc k l = Some v → P (k, v).
Proof.
  intros Hl Hk%assoc_Some_elem. rewrite Forall_forall in Hl. auto.
Qed.

Lemma concat_assoc_set {A} (F : V → list A) k v l (v0 : V) (x : A) :
  F v0 = [] →
  F v ≡ₚ x :: F (default v0 (assoc k l)) →
  concat (map (λ p, F p.2) (assoc_set k v l)) ≡ₚ x :: concat (map (λ p, F p.2) l).
Proof.
  intros H0. induction l as [|[k1 v1] l IH]; simpl.
  - intros ->. by rewrite H0, app_nil_r.
  - destruct (decide (k1 = k)) as [->|Hne]; simpl.
    + by intros ->.
    + intros Hv. rewrite (IH Hv). by rewrite Permutation_middle.
Qed.

End assoc_more.

Lemma spec_insert_keys m s :
  map fst (spec_insert m s) = add_key (map fst m) (empName s).
Proof. unfold spec_insert, add_key. apply assoc_set_keys. Qed.

Lemma aggregate_keys shifts : map fst (aggregate shifts) = first_seen shifts.
Proof.
  unfold aggregate, first_seen.
  assert (∀ m : spec_table,
    map fst (foldl spec_insert m shifts)
    = foldl add_key (map fst m) (map empName shifts)) as H.
  { induction shifts as [|s shifts IH]; intros m; [done|].
    simpl. by rewrite IH, spec_insert_keys. }
  apply H.
Qed.

Lemma spec_insert_content m s : content (spec_insert m s) ≡ₚ s :: content m.
Proof.
  unfold content, spec_insert.
  apply (concat_assoc_set (λ row, concat (map snd row)) _ _ _ []); [done|].
  apply (concat_assoc_set (λ b : list shift, b) (date s) _ _ [] s eq_refl).
  by rewrite (comm (++)).
Qed.

Lemma aggregate_content shifts : content (aggregate shifts) ≡ₚ shifts.
Proof.
  unfold aggregate.
  assert (∀ m, content (foldl spec_insert m shifts) ≡ₚ content m ++ shifts) as H.
  { induction shifts as [|s shifts IH]; intros m; simpl; [by rewrite app_nil_r|].
    rewrite IH, spec_insert_content. simpl. apply Permutation_middle. }
  by rewrite H.
Qed.

Lemma spec_insert_within D m s :
  rows_within D m → date s ∈ D → rows_within D (spec_insert m s).
Proof.
  intros Hm Hd. unfold rows_within, spec_insert. apply Forall_assoc_set; [done|]. simpl.
  assert (NoDup (map fst (default [] (assoc (empName s) m)))
          ∧ ∀ d, d ∈ map fst (default [] (assoc (empName s) m)) → d ∈ D) as [Hnd Hin].
  { destruct (assoc (empName s) m) as [row|] eqn:E; simpl.
    - apply (assoc_Forall _ _ _ _ Hm E).
    - split; [apply NoDup_nil_2|]. by intros d ?%elem_of_nil. }
  rewrite assoc_set_keys. case_decide as Hk; [done|]. split.
  - apply NoDup_app. split_and!; [done| |apply NoDup_singleton].
    by intros d Hd' ->%list_elem_of_singleton.
  - intros d [?| ->%list_elem_of_singleton]%elem_of_app; auto.
Qed.

Lemma aggregate_within shifts : rows_within (map date shifts) (aggregate shifts).
Proof.
  unfold aggregate.
  assert (∀ D m, rows_within D m → (∀ s, s ∈ shifts → date s ∈ D) →
                 rows_within D (foldl spec_insert m shifts)) as H.
  { induction shifts as [|s shifts IH]; intros D m Hm HD; simpl; [done|].
    apply IH.
    - apply spec_insert_within; [done|]. apply HD. left.
    - intros s' Hs'. apply HD. by right. }
  apply H; [apply Forall_nil_2|]. intros s Hs. by apply list_elem_of_fmap_2.
Qed.

Lemma first_seen_elem shifts k :
  k ∈ first_seen shifts → ∃ s, s ∈ shifts ∧ empName s = k.
Proof.
  unfold first_seen.
  assert (∀ acc, k ∈ foldl add_key acc (map empName shifts) →
                 k ∈ acc ∨ ∃ s, s ∈ shifts ∧ empName s = k) as H.
  { induction shifts as [|s shifts IH]; intros acc; simpl; [by left|].
    intros [Hacc|(s' & Hs' & <-)]%IH.
    - unfold add_key in Hacc. case_decide; [by left|].
      apply elem_of_app in Hacc as [?| ->%list_elem_of_singleton]; [by left|].
      right. exists s. split; [left|done].
    - right. exists s'. split; [by right|done]. }
  intros [?%elem_of_nil|?]%H; done.
Qed.

(** ** From the table to the view *)

Lemma concat_concat_map {A B} (f : A → list (list B)) (l : list A) :
  concat (concat (map f l)) = concat (map (λ x, concat (f x)) l).
Proof.
  induction l as [|x l IH]; simpl; [done|]. by rewrite concat_app, IH.
Qed.

Lemma concat_map_perm {A B} (f : A → list B) (l l' : list A) :
  l ≡ₚ l' → concat (map f l) ≡ₚ concat (map f l').
Proof.
  induction 1 as [|x l l' _ IH|x y l|l1 l2 l3 _ IH1 _ IH2]; simpl.
  - done.
  - by rewrite IH.
  - by rewrite !(assoc_L (++)), (comm (++) (f y)).
  - by etrans.
Qed.

Lemma concat_map_pointwise {A B} (f f' : A → list B) (l : list A) :
  (∀ x, x ∈ l → f x ≡ₚ f' x) → concat (map f l) ≡ₚ concat (map f' l).
Proof.
  induction l as [|x l IH]; intros H; simpl; [done|].
  rewrite (H x) by left. rewrite IH; [done|]. intros y Hy. apply H. by right.
Qed.

(** Reading a row at every date of [dates] gives all its buckets. *)
Lemma lookup_all_dates (row : list (iso_date * list shift)) (dates : list iso_date) :
  NoDup (map fst row) → NoDup dates → (∀ d, d ∈ map fst row → d ∈ dates) →
  concat (map (λ d, default [] (assoc d row)) dates) ≡ₚ concat (map snd row).
Proof.
  revert dates. induction row as [|[d0 b0] row IH]; intros dates Hrow Hdates Hsub.
  - simpl. induction dates as [|d dates IHd]; simpl; [done|].
    apply IHd; [by apply NoDup_cons in Hdates as [_ ?]|]. by intros d' ?%elem_of_nil.
  - simpl in Hrow. apply NoDup_cons in Hrow as [Hd0 Hrow].
    assert (d0 ∈ dates) as (dates' & Hperm)%elem_of_Permutation by (apply Hsub; left).
    rewrite (concat_map_perm _ _ _ Hperm). rewrite Hperm in Hdates.
    apply NoDup_cons in Hdates as [Hd0' Hdates']. simpl.
    rewrite decide_True by done. simpl. f_equiv.
    rewrite <- (IH dates' Hrow Hdates').
    + apply concat_map_pointwise. intros d Hd.
      rewrite decide_False; [done|]. by intros ->.
    + intros d Hd. assert (d ∈ dates) as Hin by (apply Hsub; by right).
      rewrite Hperm in Hin. apply elem_of_cons in Hin as [->|?]; done.
Qed.

Lemma bucket_row h r d :
  unpolluted h → bucket h r d = default [] (assoc d (row_of h r)).
Proof.
  intros Hu. unfold bucket, row_of.
  rewrite (get_date_unpolluted _ _ _ Hu), own_date_props_at, assoc_fmap.
  by destruct (assoc d (props_at h r)).
Qed.

Lemma all_buckets_content g :
  unpolluted (objects g) →
  rows_within (datesSet g) (table_of g) →
  NoDup (datesSet g) →
  all_buckets (view_of g) ≡ₚ content (table_of g).
Proof.
  intros Hu Hrows Hnd. unfold all_buckets, view_of, content, table_of. simpl.
  rewrite !map_map. simpl. rewrite concat_concat_map.
  rewrite (concat_map_perm _ _ _ (entries_perm (byEmployee g))).
  apply concat_map_pointwise. intros p Hp.
  erewrite map_ext; [|intros d; by apply bucket_row].
  unfold rows_within, table_of in Hrows. rewrite Forall_fmap, Forall_forall in Hrows.
  destruct (Hrows p Hp) as [Hk Hsub]. simpl in *.
  apply lookup_all_dates; [done| |].
  - unfold sorted_dates. by rewrite merge_sort_Permutation.
  - intros d Hd. unfold sorted_dates. rewrite merge_sort_Permutation. auto.
Qed.

(** X12: away from the names [Object.prototype] answers for, and on a page
    where nothing has been written to it, the table shows every shift
    exactly once. *)
Lemma every_shift_once h shifts :
  heap_ok h → unpolluted h →
  Forall (λ s, ¬ inherited_name (empName s)) shifts →
  all_buckets (week_view h shifts) ≡ₚ shifts
  ∧ bucketed (week_view h shifts) = length shifts
  ∧ unpolluted (renderWeekTable h shifts).1.
Proof.
  intros Hh Hu Hall.
  destruct (group_refines h shifts Hh Hu Hall) as [Ht Htab].
  assert (all_buckets (week_view h shifts) ≡ₚ shifts) as Hperm.
  { unfold week_view. rewrite all_buckets_content.
    - by rewrite Htab, aggregate_content.
    - apply Ht.
    - rewrite Htab. eapply Forall_impl; [apply aggregate_within|].
      intros row [? Hsub]. split; [done|]. intros d Hd.
      apply (group_datesSet h shifts). apply Hsub, list_elem_of_fmap in Hd as (s & -> & Hs).
      eauto.
    - apply group_datesSet. }
  split_and!; [done|unfold bucketed; by rewrite Hperm|].
  destruct shifts; [done|]. apply Ht.
Qed.

(** X13: on a page where nothing has been written to [Object.prototype],
    and for names that are neither inherited from it nor an array index, the
    rows are in order of first appearance. *)
Lemma rows_in_first_seen_order h shifts :
  heap_ok h → unpolluted h →
  Forall (λ s, ¬ inherited_name (empName s)) shifts →
  Forall (λ s, array_index (empName s) = None) shifts →
  row_names (week_view h shifts) = first_seen shifts.
Proof.
  intros Hh Hu Hall Hidx.
  destruct (group_refines h shifts Hh Hu Hall) as [Ht Htab].
  assert (map fst (byEmployee (group h shifts)) = first_seen shifts) as Hkeys.
  { rewrite <- aggregate_keys, <- Htab. unfold table_of. by rewrite map_map. }
  unfold row_names, week_view, view_of. simpl. rewrite map_map. simpl.
  rewrite entries_no_index; [done|].
  apply Forall_forall. intros p Hp.
  assert (p.1 ∈ first_seen shifts) as (s & Hs & Hk)%first_seen_elem.
  { rewrite <- Hkeys. by apply list_elem_of_fmap_2. }
  rewrite Forall_forall in Hidx. rewrite <- Hk. by apply Hidx.
Qed.

(** ** The example of the specification *)

Example two_shifts_example :
  let ada := Shift (ymd 2024 1 2) (js "09:00") (js "17:00") (js "Cashier") (named "Ada") in
  let open := Shift (ymd 2024 1 1) (js "08:00") (js "12:00") (js "Stock") VNull in
  week_view new_realm [ada; open]
  = {| columns := [ymd 2024 1 1; ymd 2024 1 2];
       rows := [(js "Ada", [[]; [ada]]); (js "(Açık shift)", [[open]; []])] |}
  ∧ (renderWeekTable new_realm [ada; open]).2
    = Table [js "Çalışan"; js "2024-01-01"; js "2024-01-02"]
            [Tr (js "Ada") [[]; [js "09:00 - 17:00 (Cashier)"]];
             Tr (js "(Açık shift)") [[js "08:00 - 12:00 (Stock)"]; []]].
Proof. by vm_compute. Qed.

(** ** Two inputs on which the table departs from the grouping *)

(** C1, at an employee named "constructor": [byEmployee["constructor"]] is
    the inherited [Object], so the loop creates no row for the name and
    pushes the shift into an array it stores on [Object]; of the two shifts
    received the table shows one. *)
Theorem C1_shift_under_inherited_name_is_not_shown :
  let shifts :=
    [sample_shift (ymd 2024 1 1) (named "Ada");
     sample_shift (ymd 2024 1 1) (named "constructor")] in
  length shifts = 2%nat
  ∧ bucketed (week_view new_realm shifts) = 1%nat
  ∧ row_names (week_view new_realm shifts) = [js "Ada"]
  ∧ all_buckets (week_view new_realm shifts) = [sample_shift (ymd 2024 1 1) (named "Ada")].
Proof. by vm_compute. Qed.

(** C3, at two employees whose names are integers: [Object.entries] lists
    such keys first and in numeric order, so the rows come out as "87",
    "1042" although "1042" is seen first. *)
Theorem C3_integer_names_are_listed_in_numeric_order :
  let shifts :=
    [sample_shift (ymd 2024 1 1) (named "1042");
     sample_shift (ymd 2024 1 1) (named "87")] in
  first_seen shifts = [js "1042"; js "87"]
  ∧ row_names (week_view new_realm shifts) = [js "87"; js "1042"].
Proof. by vm_compute. Qed.

(** * The other handlers *)

(** ** What a load does to the page *)


Lemma sent_app p p' l : fetches p' = fetches p ++ l → sent p p' = l.
Proof. unfold sent. intros ->. by rewrite drop_app_length. Qed.

Lemma loadWeekSchedule_effect (anyDate : jsstring) (r : settled (list shift)) (p : page) :
  value_of (loadWeekSchedule anyDate r p) = value_of p
  ∧ employee_list (loadWeekSchedule anyDate r p) = employee_list p
  ∧ employee_select (loadWeekSchedule anyDate r p) = employee_select p
  ∧ fetches (loadWeekSchedule anyDate r p) = fetches p ++ [GetWeek anyDate]
  ∧ match parsed r with
    | Some shifts =>
        alerts (loadWeekSchedule anyDate r p) = alerts p
        ∧ (realm (loadWeekSchedule anyDate r p), schedule (loadWeekSchedule anyDate r p))
          = renderWeekTable (realm p) shifts
    | None =>
        (∃ m, alerts (loadWeekSchedule anyDate r p) = alerts p ++ [m])
        ∧ schedule (loadWeekSchedule anyDate r p) = schedule p
        ∧ realm (loadWeekSchedule anyDate r p) = realm p
    end.
Proof.
  unfold loadWeekSchedule, loadWeek_fetched, loadWeek_call, parsed.
  destruct r as [m|[[] [m|shifts]]]; simpl; try (split_and!; eauto; done).
  unfold loadWeek_parsed. simpl.
  destruct (renderWeekTable (realm p) shifts) as [h c]. simpl. done.
Qed.

Lemma loadEmployees_effect (r : settled (list employee_record)) (p : page) :
  schedule (loadEmployees r p) = schedule p
  ∧ realm (loadEmployees r p) = realm p
  ∧ fetches (loadEmployees r p) = fetches p ++ [GetEmployees]
  ∧ (∀ f, f ≠ shift_employee → value_of (loadEmployees r p) f = value_of p f)
  ∧ match parsed r with
    | Some data =>
        alerts (loadEmployees r p) = alerts p
        ∧ employee_list (loadEmployees r p) = roster_items data
        ∧ employee_select (loadEmployees r p) = roster_options data
        ∧ value_of (loadEmployees r p) shift_employee = []
    | None =>
        (∃ m, alerts (loadEmployees r p) = alerts p ++ [m])
        ∧ employee_list (loadEmployees r p) = employee_list p
        ∧ employee_select (loadEmployees r p) = employee_select p
        ∧ value_of (loadEmployees r p) = value_of p
    end.
Proof.
  unfold loadEmployees, parsed.
  destruct r as [m|[[] [m|data]]]; simpl; try (split_and!; eauto; done).
  split_and!; try done. intros f Hf. by rewrite decide_False.
Qed.



(** ** [trim] *)

Lemma trim_start_head s c : head (trim_start s) = Some c → is_space c = false.
Proof.
  induction s as [|x s IH]; simpl; [done|].
  destruct (is_space x) eqn:E; [done|]. simpl. by intros [= <-].
Qed.

Lemma trim_start_last s c : last (trim_start s) = Some c → last s = Some c.
Proof.
  induction s as [|x s IH]; simpl; [done|].
  destruct (is_space x) eqn:E; [|done].
  intros H. pose proof (IH H) as Hs. rewrite last_cons, Hs. done.
Qed.

Lemma trim_trimmed s : trimmed (trim s).
Proof.
  unfold trimmed, trim. split; intros c.
  - rewrite head_reverse. intros H%trim_start_last.
    rewrite last_reverse in H. by eapply trim_start_head.
  - rewrite last_reverse. apply trim_start_head.
Qed.

Lemma nonempty_true s : nonempty s = true ↔ s ≠ [].
Proof. by destruct s. Qed.

(** ** What the submit handlers send *)

Lemma submitEmployee_sent reset post roster p :
  sent p (submitEmployee reset post roster p)
  = if employee_draft_complete p then
      PostEmployee (employee_draft p)
      :: match post with
         | Fulfilled res => if ok res then [GetEmployees] else []
         | Rejected _ => []
         end
    else [].
Proof.
  unfold submitEmployee, employee_draft_complete. cbv zeta. simpl ep_full_name. simpl ep_role.
  fold (employee_draft p).
  destruct (nonempty (trim (value_of p emp_name))), (nonempty (trim (value_of p emp_role)));
    simpl; try (by apply sent_none).
  destruct post as [m|res]; [by apply sent_app|].
  destruct (ok res); [|by apply sent_app].
  apply sent_app.
  match goal with |- fetches (loadEmployees roster ?q) = _ =>
    destruct (loadEmployees_effect roster q) as (_ & _ & -> & _) end.
  simpl. by rewrite <- app_assoc.
Qed.

Lemma submitShift_sent reset post week p :
  sent p (submitShift reset post week p)
  = if shift_draft_complete p then
      PostShift (shift_draft p)
      :: match post with
         | Fulfilled res => if ok res then [GetWeek (week_anchor reset p)] else []
         | Rejected _ => []
         end
    else [].
Proof.
  unfold submitShift, shift_draft_complete. cbv zeta. fold (shift_draft p).
  destruct (nonempty (value_of p shift_date)), (nonempty (value_of p shift_start)),
    (nonempty (value_of p shift_end)), (nonempty (trim (value_of p shift_position)));
    simpl; try (by apply sent_none).
  destruct post as [m|res]; [by apply sent_app|].
  destruct (ok res); [|by apply sent_app].
  apply sent_app.
  match goal with |- fetches (loadWeekSchedule ?a week ?q) = _ =>
    destruct (loadWeekSchedule_effect a week q) as (_ & _ & _ & -> & _) end.
  simpl. rewrite <- app_assoc. done.
Qed.

(** X3: whatever employee the form sends has a name and a role that are not
    empty and carry no whitespace at either end, is active, and has [null]
    rather than an empty text for a missing phone or rate. *)
Theorem employee_sent_is_well_formed
    (reset : (field → jsstring) → field → jsstring) (post : settled post_body)
    (roster : settled (list employee_record)) (p : page) (body : employee_payload) :
  PostEmployee body ∈ sent p (submitEmployee reset post roster p) →
  body = employee_draft p
  ∧ ep_full_name body ≠ [] ∧ trimmed (ep_full_name body)
  ∧ ep_role body ≠ [] ∧ trimmed (ep_role body)
  ∧ ep_is_active body = true
  ∧ ep_phone body ≠ Some [] ∧ ep_hourly_rate body ≠ Some [].
Proof.
  rewrite submitEmployee_sent. unfold employee_draft_complete.
  destruct (nonempty (trim (value_of p emp_name))) eqn:Hn; simpl;
    [|by intros ?%elem_of_nil].
  destruct (nonempty (trim (value_of p emp_role))) eqn:Hr; simpl;
    [|by intros ?%elem_of_nil].
  intros Hin. assert (body = employee_draft p) as ->.
  { apply elem_of_cons in Hin as [[= ->]|Hin]; [done|].
    destruct post as [m|res]; [by apply elem_of_nil in Hin|].
    destruct (ok res); [|by apply elem_of_nil in Hin].
    by apply list_elem_of_singleton in Hin. }
  unfold employee_draft. simpl.
  split_and!; [done|by apply nonempty_true|apply trim_trimmed
              |by apply nonempty_true|apply trim_trimmed|done| |].
  - destruct (nonempty (trim (value_of p emp_phone))) eqn:E; [|done].
    intros [= H]. by rewrite H in E.
  - destruct (nonempty (value_of p emp_rate)) eqn:E; [|done].
    intros [= H]. by rewrite H in E.
Qed.

(** X4: whatever shift the form sends has a date, a start, an end and a
    position that are not empty, the position without whitespace at either
    end, and [null] rather than an empty text when no employee is chosen. *)
Theorem shift_sent_is_well_formed
    (reset : (field → jsstring) → field → jsstring) (post : settled post_body)
    (week : settled (list shift)) (p : page) (body : shift_payload) :
  PostShift body ∈ sent p (submitShift reset post week p) →
  body = shift_draft p
  ∧ sp_date body ≠ [] ∧ sp_start_time body ≠ [] ∧ sp_end_time body ≠ []
  ∧ sp_position body ≠ [] ∧ trimmed (sp_position body)
  ∧ sp_employee_id body ≠ Some [].
Proof.
  rewrite submitShift_sent. unfold shift_draft_complete.
  destruct (nonempty (value_of p shift_date)) eqn:H1; simpl; [|by intros ?%elem_of_nil].
  destruct (nonempty (value_of p shift_start)) eqn:H2; simpl; [|by intros ?%elem_of_nil].
  destruct (nonempty (value_of p shift_end)) eqn:H3; simpl; [|by intros ?%elem_of_nil].
  destruct (nonempty (trim (value_of p shift_position))) eqn:H4; simpl;
    [|by intros ?%elem_of_nil].
  intros Hin. assert (body = shift_draft p) as ->.
  { apply elem_of_cons in Hin as [[= ->]|Hin]; [done|].
    destruct post as [m|res]; [by apply elem_of_nil in Hin|].
    destruct (ok res); [|by apply elem_of_nil in Hin].
    by apply list_elem_of_singleton in Hin. }
  unfold shift_draft. simpl.
  split_and!; [done|by apply nonempty_true..|apply trim_trimmed|].
  destruct (nonempty (value_of p shift_employee)) eqn:E; [|done].
  intros [= H]. by rewrite H in E.
Qed.

(** ** After a record is saved *)



Lemma week_anchor_dated reset p : shift_draft_complete p = true → week_anchor reset p ≠ [].
Proof.
  unfold shift_draft_complete, week_anchor.
  intros [[[Hd _]%andb_true_iff _]%andb_true_iff _]%andb_true_iff.
  destruct (nonempty (reset (value_of p) week_date)) eqn:E; by apply nonempty_true.
Qed.



Lemma date_key_dated d : date_key d ≠ [].
Proof. done. Qed.

(** X7: no caller of [loadWeekSchedule] asks for a week without a date: not
    the button, not the shift form, not the start of the page. *)
Theorem week_is_never_requested_without_a_date
    (reset : (field → jsstring) → field → jsstring) (today : iso_date)
    (post : settled post_body) (roster : settled (list employee_record))
    (week : settled (list shift)) (p : page) :
  Forall dated (sent p (clickLoadWeek week p))
  ∧ Forall dated (sent p (submitShift reset post week p))
  ∧ Forall dated (sent p (initialize today roster week p)).
Proof.
  split_and!.
  - unfold clickLoadWeek. cbv zeta.
    destruct (nonempty (value_of p week_date)) eqn:E; simpl.
    + destruct (loadWeekSchedule_effect (value_of p week_date) week p) as (_ & _ & _ & Hf & _).
      rewrite (sent_app _ _ _ Hf). apply Forall_singleton. simpl. by apply nonempty_true.
    + rewrite sent_none by done. apply Forall_nil_2.
  - rewrite submitShift_sent. destruct (shift_draft_complete p) eqn:Hc; [|apply Forall_nil_2].
    apply Forall_cons. split; [done|].
    destruct post as [m|res]; [apply Forall_nil_2|].
    destruct (ok res); [|apply Forall_nil_2].
    apply Forall_singleton. simpl. by apply week_anchor_dated.
  - unfold initialize. cbv zeta.
    match goal with |- context [loadWeekSchedule ?a week ?q] =>
      destruct (loadWeekSchedule_effect a week q) as (_ & _ & _ & Hf & _) end.
    destruct (loadEmployees_effect roster p) as (_ & _ & Hf' & _).
    rewrite (sent_app _ _ [GetEmployees; GetWeek (date_key today)]).
    + repeat apply Forall_cons_2; done.
    + rewrite Hf. change (fetches (loadEmployees roster p) ++ [GetWeek (date_key today)]
                          = fetches p ++ [GetEmployees; GetWeek (date_key today)]).
      by rewrite Hf', <- app_assoc.
Qed.


(** * Dates as numbers *)

Lemma positional_bound l : Forall (λ x, x < 10) l → positional l < 10 ^ N.of_nat (length l).
Proof.
  induction 1 as [|x l Hx Hl IH]; simpl positional; [simpl; lia|].
  cbn [length]. rewrite Nat2N.inj_succ, N.pow_succ_r'. nia.
Qed.

Lemma str_ltb_positional l l' :
  Forall (λ x, x < 10) l → Forall (λ x, x < 10) l' → length l = length l' →
  str_ltb l l' = true ↔ positional l < positional l'.
Proof.
  intros Hl. revert l'. induction Hl as [|x l Hx Hl IH]; intros [|y l'] Hl' Hlen;
    try done; simpl in Hlen.
  apply Forall_cons in Hl' as [Hy Hl']. injection Hlen as Hlen.
    cbn [str_ltb positional]. rewrite orb_true_iff, andb_true_iff, N.ltb_lt, N.eqb_eq.
    rewrite (IH l' Hl' Hlen).
    pose proof (positional_bound l Hl) as Ha.
    pose proof (positional_bound l' Hl') as Hb. rewrite <- Hlen in *.
    generalize dependent (positional l). generalize dependent (positional l').
    generalize dependent (10 ^ N.of_nat (length l)). intros P b ? a ? ?. nia.
Qed.

Lemma digit_code_val d : digit_code d = 48 + digit_val d.
Proof. by destruct d. Qed.

Lemma digit_val_bound d : digit_val d < 10.
Proof. destruct d; unfold digit_val, digit_code; lia. Qed.

Lemma ltb_add_48 x y : (48 + x <? 48 + y) = (x <? y).
Proof. destruct (N.ltb_spec x y), (N.ltb_spec (48 + x) (48 + y)); lia. Qed.

Lemma eqb_add_48 x y : (48 + x =? 48 + y) = (x =? y).
Proof. destruct (N.eqb_spec x y), (N.eqb_spec (48 + x) (48 + y)); lia. Qed.

Lemma date_key_digit_vals a b :
  str_ltb (date_key a) (date_key b) = str_ltb (digit_vals a) (digit_vals b).
Proof.
  unfold date_key, digit_vals. cbn [str_ltb].
  rewrite !digit_code_val, !ltb_add_48, !eqb_add_48, N.ltb_irrefl, N.eqb_refl.
  done.
Qed.

Lemma date_number_positional d : date_number d = positional (digit_vals d).
Proof.
  unfold date_number, digit_vals, positional. cbn [length].
  change (10 ^ N.of_nat 7) with 10000000. change (10 ^ N.of_nat 6) with 1000000.
  change (10 ^ N.of_nat 5) with 100000. change (10 ^ N.of_nat 4) with 10000.
  change (10 ^ N.of_nat 3) with 1000. change (10 ^ N.of_nat 2) with 100.
  change (10 ^ N.of_nat 1) with 10. change (10 ^ N.of_nat 0) with 1. lia.
Qed.

Lemma date_key_lt (a b : iso_date) :
  str_ltb (date_key a) (date_key b) = true ↔ date_number a < date_number b.
Proof.
  rewrite date_key_digit_vals, !date_number_positional.
  apply str_ltb_positional; [| |done];
    unfold digit_vals; repeat apply Forall_cons_2; try apply Forall_nil_2;
    apply digit_val_bound.
Qed.

(** * More on the table *)

(** ** Its shape *)

(** X9: the table is rectangular: every row has one cell per header date,
    in the view and in the markup, whatever the store and the list. *)
Theorem table_is_rectangular (h : heap) (shifts : list shift) :
  Forall (λ row, length row.2 = length (columns (week_view h shifts)))
         (rows (week_view h shifts))
  ∧ match (renderWeekTable h shifts).2 with
    | Table head body => Forall (λ r, S (length (cells r)) = length head) body
    | Notice _ => shifts = []
    | Blank => False
    end.
Proof.
  split.
  - unfold week_view, view_of. simpl. apply Forall_fmap, Forall_forall.
    intros p _. simpl. by rewrite length_fmap.
  - destruct shifts as [|s shifts]; [done|].
    unfold renderWeekTable, draw, view_of. simpl. apply Forall_fmap, Forall_fmap, Forall_forall.
    intros p _. simpl. by rewrite !length_fmap.
Qed.

(** ** The order of the dates *)

Lemma sorted_chronological (l : list iso_date) :
  NoDup l → StronglySorted date_le l →
  StronglySorted (λ a b, date_number a < date_number b) l.
Proof.
  induction 2 as [|x l Hl IH Hx]; constructor.
  - apply IH. by eapply NoDup_cons_1_2.
  - apply Forall_forall. intros y Hy. rewrite Forall_forall in Hx.
    apply date_key_lt. specialize (Hx y Hy). unfold date_le, str_le in Hx.
    destruct (str_ltb (date_key x) (date_key y)) eqn:E; [done|].
    assert (x = y) as -> by (apply (inj date_key); by apply str_ltb_connex).
    by apply NoDup_cons_1_1 in H.
Qed.

(** X10: the header dates are in the order of the calendar, earliest first,
    whatever the store and the list. *)
Theorem columns_are_chronological (h : heap) (shifts : list shift) :
  StronglySorted (λ a b, date_number a < date_number b) (columns (week_view h shifts)).
Proof.
  unfold week_view, view_of, sorted_dates. simpl.
  destruct (group_datesSet h shifts) as [Hnd _].
  apply sorted_chronological.
  - by rewrite merge_sort_Permutation.
  - apply (StronglySorted_merge_sort _).
Qed.

(** ** No row without a shift *)

Lemma visit_places_own g s r :
  grouping_ok g →
  assoc (empName s) (byEmployee (line155 (empName s) g)) = Some r →
  placed (visit g s) (empName s) s.
Proof.
  intros H0 Hk. unfold visit.
  destruct (line155_ok (empName s) g H0) as [H1 _].
  destruct (line156_own (empName s) (date s) _ r H1 Hk) as (a & Hown & Ha & Hby).
  rewrite <- Hby in Hk.
  pose proof (line157_places _ s _ r a Hk Hown Ha) as Hp.
  eapply placed_extends; [|exact Hp].
  apply line158_ok. apply line157_ok. by apply line156_ok.
Qed.

Lemma foldl_visit_rows_used shifts g (seen : shift → Prop) :
  grouping_ok g →
  (∀ k r, assoc k (byEmployee g) = Some r → ∃ s, seen s ∧ empName s = k ∧ placed g k s) →
  ∀ k r, assoc k (byEmployee (foldl visit g shifts)) = Some r →
    ∃ s, (seen s ∨ s ∈ shifts) ∧ empName s = k ∧ placed (foldl visit g shifts) k s.
Proof.
  revert g seen. induction shifts as [|s0 shifts IH]; intros g seen Hok Hg k r Hk; simpl in *.
  { destruct (Hg k r Hk) as (s & ? & ? & ?). exists s. auto. }
  destruct (visit_ok g s0 Hok) as [Hok' Hext].
  destruct (IH (visit g s0) (λ s, seen s ∨ s = s0) Hok') with (k := k) (r := r)
    as (s & Hs & Hks & Hp); [|done|].
  - intros k' r' Hk'. rewrite visit_byEmployee in Hk'.
    destruct (assoc k' (byEmployee g)) as [r0|] eqn:E.
    + destruct (Hg k' r0 E) as (s & ? & ? & ?). exists s.
      split_and!; [by left|done|by eapply placed_extends].
    + assert (k' = empName s0) as ->.
      { unfold line155 in Hk'. destruct (get_row g (empName s0)); [congruence|].
        simpl in Hk'. rewrite assoc_snoc, E in Hk'. by case_decide. }
      exists s0. split_and!; [by right|done|by eapply visit_places_own].
  - exists s. split_and!; [|done..].
    destruct Hs as [[?| ->]|?]; [by left|right; left|right; by right].
Qed.

Lemma assoc_is_Some {K V} `{EqDecision K} (k : K) (v : V) (l : list (K * V)) :
  (k, v) ∈ l → is_Some (assoc k l).
Proof.
  induction l as [|[k0 v0] l IH]; [by intros ?%elem_of_nil|].
  simpl. destruct (decide (k0 = k)); [eauto|].
  intros [[= -> ->]|?]%elem_of_cons; [done|auto].
Qed.

Lemma NoDup_fst_agree {K V} (l : list (K * V)) k v v' :
  NoDup (map fst l) → (k, v) ∈ l → (k, v') ∈ l → v = v'.
Proof.
  induction l as [|[k0 v0] l IH]; [by intros _ ?%elem_of_nil|]. simpl.
  intros [Hk Hnd]%NoDup_cons H1%elem_of_cons H2%elem_of_cons.
  destruct H1 as [H1|H1], H2 as [H2|H2]; simplify_eq; auto.
  - destruct Hk. by apply (list_elem_of_fmap_2 fst _ (k0, v')).
  - destruct Hk. by apply (list_elem_of_fmap_2 fst _ (k0, v)).
Qed.

(** X11: no row of the table is empty and no row is made up: every row is
    named by the key of some shift of the list, and shows that shift in the
    column of its date.  This holds for every store a page can have. *)
Theorem every_row_shows_a_shift_of_its_name
    (h : heap) (shifts : list shift) (k : jsstring) (cs : list (list shift)) :
  heap_ok h →
  (k, cs) ∈ rows (week_view h shifts) →
  ∃ s i c, s ∈ shifts ∧ empName s = k
           ∧ columns (week_view h shifts) !! i = Some (date s)
           ∧ cs !! i = Some c ∧ s ∈ c.
Proof.
  intros Hh Hrow.
  assert (k ∈ row_names (week_view h shifts)) as Hk
    by (by apply (list_elem_of_fmap_2 fst _ (k, cs))).
  unfold week_view in Hk. rewrite row_names_view_of in Hk.
  apply list_elem_of_fmap in Hk as ([k' r] & -> & Hin). simpl in *.
  destruct (assoc_is_Some _ _ _ Hin) as [r' Hr'].
  destruct (foldl_visit_rows_used shifts (Grouping [] [] h) (λ _, False)
              (group_start_ok h Hh) ltac:(done) k' r' Hr') as (s & [[]|Hs] & Hks & Hp).
  assert (date s ∈ datesSet (group h shifts)) as Hd
    by (apply (group_datesSet h shifts); eauto).
  destruct (placed_shown _ _ _ Hp Hd) as (i & cs' & c & Hcs' & Hi & Hc & Hsc).
  assert (cs' = cs) as ->.
  { eapply NoDup_fst_agree; [apply (row_names_nodup h shifts)|done..]. }
  exists s, i, c. done.
Qed.

(** * The table as a function of the list *)

(** ** Sorting commutes with a map that keeps the order *)

Section merge_sort_fmap.
Context {A B : Type} (f : A → B) (R : relation A) (R' : relation B).
Context `{∀ x y, Decision (R x y)} `{∀ x y, Decision (R' x y)}.
Hypothesis Rf : ∀ x y, R x y ↔ R' (f x) (f y).

Lemma list_merge_fmap l1 l2 :
  f <$> list_merge R l1 l2 = list_merge R' (f <$> l1) (f <$> l2).
Proof.
  revert l2. induction l1 as [|x1 l1 IH1]; intros l2.
  { by destruct l2. }
  induction l2 as [|x2 l2 IH2]; [done|].
  rewrite !fmap_cons, !list_merge_cons.
  destruct (decide (R x1 x2)) as [HR|HR], (decide (R' (f x1) (f x2))) as [HR'|HR'].
  - rewrite fmap_cons. by rewrite IH1.
  - destruct HR'. by apply Rf.
  - destruct HR. by apply Rf.
  - rewrite fmap_cons. by rewrite IH2.
Qed.

Lemma merge_list_to_stack_fmap st l :
  fmap (M:=list) (fmap (M:=option) (fmap (M:=list) f)) (merge_list_to_stack R st l)
  = merge_list_to_stack R'
      (fmap (M:=list) (fmap (M:=option) (fmap (M:=list) f)) st) (f <$> l).
Proof.
  revert l. induction st as [|[l'|] st IH]; intros l; csimpl; [done| |done].
  by rewrite IH, list_merge_fmap.
Qed.

Lemma merge_stack_fmap st :
  f <$> merge_stack R st
  = merge_stack R' (fmap (M:=list) (fmap (M:=option) (fmap (M:=list) f)) st).
Proof.
  induction st as [|[l|] st IH]; csimpl; [done| |done].
  by rewrite list_merge_fmap, IH.
Qed.

Lemma merge_sort_aux_fmap st l :
  f <$> merge_sort_aux R st l
  = merge_sort_aux R'
      (fmap (M:=list) (fmap (M:=option) (fmap (M:=list) f)) st) (f <$> l).
Proof.
  revert st. induction l as [|x l IH]; intros st; csimpl.
  - apply merge_stack_fmap.
  - by rewrite IH, merge_list_to_stack_fmap.
Qed.

Lemma merge_sort_fmap l : f <$> merge_sort R l = merge_sort R' (f <$> l).
Proof. apply (merge_sort_aux_fmap []). Qed.

End merge_sort_fmap.

(** ** The order of the rows *)

Lemma entries_keys (o : list (jsstring * ref)) :
  map fst (entries o) = key_order (map fst o).
Proof.
  unfold entries, key_order. rewrite map_app. f_equal.
  - rewrite map_map.
    rewrite <- (map_map (λ x : N * (jsstring * ref), (x.1, x.2.1)) snd).
    f_equal.
    change (map ?g ?l) with (g <$> l).
    rewrite (merge_sort_fmap _ index_le key_le) by done. f_equal.
    induction o as [|[k r] o IH]; [done|]. csimpl.
    destruct (array_index k); csimpl; by rewrite IH.
  - induction o as [|[k r] o IH]; [done|]. csimpl.
    rewrite !filter_cons. simpl. case_decide; csimpl; by rewrite IH.
Qed.

(** ** The set of dates *)

Lemma group_first_dates h shifts : datesSet (group h shifts) = first_dates shifts.
Proof.
  unfold group, first_dates.
  assert (∀ g, datesSet (foldl visit g shifts)
               = foldl (λ acc d, if decide (d ∈ acc) then acc else acc ++ [d])
                       (datesSet g) (map date shifts)) as H.
  { induction shifts as [|s shifts IH]; intros g; [done|].
    simpl. by rewrite IH, visit_datesSet. }
  apply H.
Qed.

(** ** The buckets *)


Lemma assoc_assoc_set {K V} `{EqDecision K} (k k' : K) (v : V) (l : list (K * V)) :
  assoc k' (assoc_set k v l) = if decide (k = k') then Some v else assoc k' l.
Proof.
  case_decide as E; [subst; apply assoc_set_eq|by apply assoc_set_ne].
Qed.

Lemma lookup2_insert m s k d :
  lookup2 (spec_insert m s) k d
  = if decide (empName s = k ∧ date s = d) then lookup2 m k d ++ [s] else lookup2 m k d.
Proof.
  unfold lookup2, spec_insert. rewrite assoc_assoc_set.
  destruct (decide (empName s = k)) as [<-|Hk]; simpl.
  - rewrite assoc_assoc_set. destruct (decide (date s = d)) as [<-|Hd]; simpl.
    + by rewrite decide_True.
    + rewrite decide_False; [done|]. by intros [_ ?].
  - rewrite decide_False; [done|]. by intros [? _].
Qed.

Lemma lookup2_aggregate shifts k d : lookup2 (aggregate shifts) k d = bucket_of shifts k d.
Proof.
  unfold aggregate, bucket_of.
  assert (∀ m, lookup2 (foldl spec_insert m shifts) k d
               = lookup2 m k d ++ filter (λ s, empName s = k ∧ date s = d) shifts) as H.
  { induction shifts as [|s shifts IH]; intros m; simpl; [by rewrite app_nil_r|].
    rewrite IH, lookup2_insert, filter_cons.
    case_decide; [by rewrite <- app_assoc|done]. }
  by rewrite H.
Qed.

Lemma assoc_NoDup_elem {K V} `{EqDecision K} (k : K) (v : V) (l : list (K * V)) :
  NoDup (map fst l) → (k, v) ∈ l → assoc k l = Some v.
Proof.
  intros Hnd Hin. destruct (assoc_is_Some k v l Hin) as [v' Hv'].
  rewrite Hv'. f_equal. eapply NoDup_fst_agree; [done| |done]. by apply assoc_Some_elem.
Qed.

(** The grouping loop and [Object.entries] against the closed form. *)
Lemma week_view_expected (h : heap) (shifts : list shift) :
  heap_ok h → unpolluted h →
  Forall (λ s, ¬ inherited_name (empName s)) shifts →
  week_view h shifts = expected_view shifts.
Proof.
  intros Hh Hu Hall.
  destruct (group_refines h shifts Hh Hu Hall) as [Ht Htab].
  pose proof (foldl_visit_names shifts (Grouping [] [] h) (NoDup_nil_2)) as Hnd.
  fold (group h shifts) in Hnd.
  assert (map fst (byEmployee (group h shifts)) = first_seen shifts) as Hkeys.
  { rewrite <- aggregate_keys, <- Htab. unfold table_of. by rewrite map_map. }
  unfold week_view, view_of, expected_view, sorted_dates.
  rewrite (group_first_dates h shifts). f_equal.
  rewrite <- Hkeys, <- entries_keys, map_map. apply map_ext_in.
  intros [k r] Hin%list_elem_of_In. simpl. f_equal. apply map_ext. intros d.
  rewrite <- lookup2_aggregate, <- Htab, bucket_row by apply Ht.
  unfold lookup2. f_equal. f_equal.
  rewrite entries_perm in Hin.
  unfold table_of. rewrite assoc_fmap, (assoc_NoDup_elem k r); done.
Qed.

(** X14: on a page whose [Object.prototype] is untouched, and for names that
    are not inherited from it, the view is a function of the list alone:
    the columns are the distinct dates sorted, the rows are the distinct
    keys in the order of [Object.entries], and the cell of a key and a date
    holds exactly the shifts of that key and date, in the order of the
    list. *)
Theorem view_is_a_function_of_the_list (h : heap) (shifts : list shift) :
  heap_ok h → unpolluted h →
  Forall (λ s, ¬ inherited_name (empName s)) shifts →
  week_view h shifts = expected_view shifts.
Proof. apply week_view_expected. Qed.

(** X15: rendering does not depend on what was rendered before: after any
    list of shifts with names that are not inherited, a list of the same
    kind gives the table it gives on the page as it was. *)
Theorem render_is_repeatable (h : heap) (before shifts : list shift) :
  heap_ok h → unpolluted h →
  Forall (λ s, ¬ inherited_name (empName s)) before →
  Forall (λ s, ¬ inherited_name (empName s)) shifts →
  (renderWeekTable (renderWeekTable h before).1 shifts).2 = (renderWeekTable h shifts).2.
Proof.
  intros Hh Hu Hb Hs.
  assert (heap_ok (renderWeekTable h before).1) as Hh' by (by apply renderWeekTable_heap_ok).
  assert (unpolluted (renderWeekTable h before).1) as Hu'.
  { destruct before as [|s0 before]; [done|].
    apply (group_refines h (s0 :: before) Hh Hu Hb). }
  destruct shifts as [|s shifts]; [done|].
  unfold renderWeekTable at 1 3. cbn [snd].
  change (view_of (group ?x ?l)) with (week_view x l).
  by rewrite !week_view_expected.
Qed.

(** * The theorems at sample data *)

Lemma employee_sent_witness :
  PostEmployee (employee_draft sample_page)
    ∈ sent sample_page (submitEmployee id (Rejected []) (Rejected []) sample_page)
  ∧ ep_full_name (employee_draft sample_page) ≠ []
  ∧ trimmed (ep_full_name (employee_draft sample_page)).
Proof.
  assert (H : PostEmployee (employee_draft sample_page)
                ∈ sent sample_page (submitEmployee id (Rejected []) (Rejected []) sample_page))
    by (vm_compute; constructor).
  split; [exact H|].
  pose proof (employee_sent_is_well_formed id (Rejected []) (Rejected []) sample_page
                (employee_draft sample_page) H) as T.
  exact (conj (proj1 (proj2 T)) (proj1 (proj2 (proj2 T)))).
Defined.

Lemma shift_sent_witness :
  PostShift (shift_draft sample_page)
    ∈ sent sample_page (submitShift id (Rejected []) (Rejected []) sample_page)
  ∧ sp_date (shift_draft sample_page) ≠ []
  ∧ sp_employee_id (shift_draft sample_page) ≠ Some [].
Proof.
  assert (H : PostShift (shift_draft sample_page)
                ∈ sent sample_page (submitShift id (Rejected []) (Rejected []) sample_page))
    by (vm_compute; constructor).
  split; [exact H|].
  pose proof (shift_sent_is_well_formed id (Rejected []) (Rejected []) sample_page
                (shift_draft sample_page) H) as T.
  exact (conj (proj1 (proj2 T)) (proj2 (proj2 (proj2 (proj2 (proj2 (proj2 T))))))).
Defined.



Lemma every_row_witness :
  heap_ok new_realm
  ∧ (js "Ada", [[sample_shift (ymd 2024 1 1) (named "Ada")]])
      ∈ rows (week_view new_realm [sample_shift (ymd 2024 1 1) (named "Ada")])
  ∧ ∃ s i c, s ∈ [sample_shift (ymd 2024 1 1) (named "Ada")] ∧ empName s = js "Ada"
             ∧ columns (week_view new_realm [sample_shift (ymd 2024 1 1) (named "Ada")]) !! i
               = Some (date s)
             ∧ [[sample_shift (ymd 2024 1 1) (named "Ada")]] !! i = Some c ∧ s ∈ c.
Proof.
  assert (H : (js "Ada", [[sample_shift (ymd 2024 1 1) (named "Ada")]])
                ∈ rows (week_view new_realm [sample_shift (ymd 2024 1 1) (named "Ada")]))
    by (vm_compute; constructor).
  split; [exact new_realm_ok|]. split; [exact H|].
  exact (every_row_shows_a_shift_of_its_name new_realm
           [sample_shift (ymd 2024 1 1) (named "Ada")] (js "Ada")
           [[sample_shift (ymd 2024 1 1) (named "Ada")]] new_realm_ok H).
Defined.


Lemma sample_week_names : Forall (λ s, ¬ inherited_name (empName s)) sample_week.
Proof. repeat constructor; intros [x Hx]; vm_compute in Hx; discriminate. Qed.

Lemma sample_week_no_index : Forall (λ s, array_index (empName s) = None) sample_week.
Proof. repeat constructor. Qed.

Lemma new_realm_unpolluted : unpolluted new_realm.
Proof. reflexivity. Qed.

Lemma every_shift_once_witness :
  heap_ok new_realm ∧ unpolluted new_realm
  ∧ Forall (λ s, ¬ inherited_name (empName s)) sample_week
  ∧ bucketed (week_view new_realm sample_week) = length sample_week.
Proof.
  split_and!; [exact new_realm_ok|exact new_realm_unpolluted|exact sample_week_names|].
  exact (proj1 (proj2 (every_shift_once new_realm sample_week
                         new_realm_ok new_realm_unpolluted sample_week_names))).
Defined.

Lemma rows_in_first_seen_order_witness :
  heap_ok new_realm ∧ unpolluted new_realm
  ∧ Forall (λ s, ¬ inherited_name (empName s)) sample_week
  ∧ Forall (λ s, array_index (empName s) = None) sample_week
  ∧ row_names (week_view new_realm sample_week) = first_seen sample_week.
Proof.
  split_and!; [exact new_realm_ok|exact new_realm_unpolluted|exact sample_week_names
              |exact sample_week_no_index|].
  exact (rows_in_first_seen_order new_realm sample_week
           new_realm_ok new_realm_unpolluted sample_week_names sample_week_no_index).
Defined.

Lemma view_is_a_function_witness :
  heap_ok new_realm ∧ unpolluted new_realm
  ∧ Forall (λ s, ¬ inherited_name (empName s)) sample_week
  ∧ week_view new_realm sample_week = expected_view sample_week.
Proof.
  split_and!; [exact new_realm_ok|exact new_realm_unpolluted|exact sample_week_names|].
  exact (view_is_a_function_of_the_list new_realm sample_week
           new_realm_ok new_realm_unpolluted sample_week_names).
Defined.

Lemma render_is_repeatable_witness :
  heap_ok new_realm ∧ unpolluted new_realm
  ∧ Forall (λ s, ¬ inherited_name (empName s)) sample_week
  ∧ (renderWeekTable (renderWeekTable new_realm sample_week).1 sample_week).2
    = (renderWeekTable new_realm sample_week).2.
Proof.
  split_and!; [exact new_realm_ok|exact new_realm_unpolluted|exact sample_week_names|].
  exact (render_is_repeatable new_realm sample_week sample_week
           new_realm_ok new_realm_unpolluted sample_week_names sample_week_names).
Defined.
